(** * keyboard.go: terminal key decoding, the two input tasks and the console

    A shallow embedding of [keyboard.go] (package [keyboard], non-Windows
    build).  Byte slices and Go strings are [list byte]; Go [int], [rune]
    and key codes are [Z]; the goroutines are transition functions over the
    outcomes of their blocking operations. *)

From Stdlib Require Import String.
From Stdlib Require Import ZArith List Bool Lia.
From Stdlib Require Import Strings.Byte.
Import ListNotations.
Local Open Scope Z_scope.

(* ================================================================== *)
(** * Part I: definitions                                              *)
(* ================================================================== *)

(** ** Bytes, slices and strings *)

(** The numeric value of a byte (Go's [uint8]). *)
Definition byte_val (b : byte) : Z := Z.of_N (Byte.to_N b).

(** Go's [len] on a slice or a string. *)
Definition len {A : Type} (l : list A) : Z := Z.of_nat (length l).

Fixpoint bytes_eqb (a b : list byte) : bool :=
  match a, b with
  | [], [] => true
  | x :: a', y :: b' => Byte.eqb x y && bytes_eqb a' b'
  | _, _ => false
  end.

(** [strings.HasPrefix(s, prefix)]:
    [len(s) >= len(prefix) && s[:len(prefix)] == prefix]. *)
Definition HasPrefix (s prefix : list byte) : bool :=
  (len prefix <=? len s) && bytes_eqb (firstn (length prefix) s) prefix.

(** ** unicode/utf8 (Go standard library): [DecodeRune] *)

Definition RuneError : Z := 0xFFFD.

Definition locb : Z := 0x80.
Definition hicb : Z := 0xBF.

Definition maskx : Z := 0x3F.
Definition mask2 : Z := 0x1F.
Definition mask3 : Z := 0x0F.
Definition mask4 : Z := 0x07.

Definition xx : Z := 0xF1. (* invalid: size 1 *)
Definition as_ : Z := 0xF0. (* ASCII: size 1 *)
Definition s1 : Z := 0x02. (* accept 0, size 2 *)
Definition s2 : Z := 0x13. (* accept 1, size 3 *)
Definition s3 : Z := 0x03. (* accept 0, size 3 *)
Definition s4 : Z := 0x23. (* accept 2, size 3 *)
Definition s5 : Z := 0x34. (* accept 3, size 4 *)
Definition s6 : Z := 0x04. (* accept 0, size 4 *)
Definition s7 : Z := 0x44. (* accept 4, size 4 *)

(** [first]: information about the first byte of a UTF-8 sequence. *)
Definition first_table : list Z :=
  [ as_; as_; as_; as_; as_; as_; as_; as_; as_; as_; as_; as_; as_; as_; as_; as_;  (* 0x00-0x0F *)
    as_; as_; as_; as_; as_; as_; as_; as_; as_; as_; as_; as_; as_; as_; as_; as_;  (* 0x10-0x1F *)
    as_; as_; as_; as_; as_; as_; as_; as_; as_; as_; as_; as_; as_; as_; as_; as_;  (* 0x20-0x2F *)
    as_; as_; as_; as_; as_; as_; as_; as_; as_; as_; as_; as_; as_; as_; as_; as_;  (* 0x30-0x3F *)
    as_; as_; as_; as_; as_; as_; as_; as_; as_; as_; as_; as_; as_; as_; as_; as_;  (* 0x40-0x4F *)
    as_; as_; as_; as_; as_; as_; as_; as_; as_; as_; as_; as_; as_; as_; as_; as_;  (* 0x50-0x5F *)
    as_; as_; as_; as_; as_; as_; as_; as_; as_; as_; as_; as_; as_; as_; as_; as_;  (* 0x60-0x6F *)
    as_; as_; as_; as_; as_; as_; as_; as_; as_; as_; as_; as_; as_; as_; as_; as_;  (* 0x70-0x7F *)
    xx; xx; xx; xx; xx; xx; xx; xx; xx; xx; xx; xx; xx; xx; xx; xx;                  (* 0x80-0x8F *)
    xx; xx; xx; xx; xx; xx; xx; xx; xx; xx; xx; xx; xx; xx; xx; xx;                  (* 0x90-0x9F *)
    xx; xx; xx; xx; xx; xx; xx; xx; xx; xx; xx; xx; xx; xx; xx; xx;                  (* 0xA0-0xAF *)
    xx; xx; xx; xx; xx; xx; xx; xx; xx; xx; xx; xx; xx; xx; xx; xx;                  (* 0xB0-0xBF *)
    xx; xx; s1; s1; s1; s1; s1; s1; s1; s1; s1; s1; s1; s1; s1; s1;                  (* 0xC0-0xCF *)
    s1; s1; s1; s1; s1; s1; s1; s1; s1; s1; s1; s1; s1; s1; s1; s1;                  (* 0xD0-0xDF *)
    s2; s3; s3; s3; s3; s3; s3; s3; s3; s3; s3; s3; s3; s4; s3; s3;                  (* 0xE0-0xEF *)
    s5; s6; s6; s6; s7; xx; xx; xx; xx; xx; xx; xx; xx; xx; xx; xx ].                (* 0xF0-0xFF *)

Definition first (p0 : byte) : Z := nth (Byte.to_nat p0) first_table xx.

(** [acceptRanges]: the range of valid values for the second byte. *)
Record acceptRange := { lo : Z; hi : Z }.

Definition acceptRanges (i : Z) : acceptRange :=
  match i with
  | 0 => {| lo := locb; hi := hicb |}
  | 1 => {| lo := 0xA0; hi := hicb |}
  | 2 => {| lo := locb; hi := 0x9F |}
  | 3 => {| lo := 0x90; hi := hicb |}
  | 4 => {| lo := locb; hi := 0x8F |}
  | _ => {| lo := 0; hi := 0 |}
  end.

(** Conversion to Go's [int32] ([rune]): wrap-around into [-2^31, 2^31). *)
Definition int32 (z : Z) : Z := (z + 2 ^ 31) mod 2 ^ 32 - 2 ^ 31.

(** [utf8.DecodeRune(p)]: the first rune of [p] and its width in bytes;
    [(RuneError, 0)] on an empty slice, [(RuneError, 1)] on an invalid or
    incomplete encoding. *)
Definition DecodeRune (p : list byte) : Z * Z :=
  let n := len p in
  match p with
  | [] => (RuneError, 0)
  | p0 :: t =>
    let x := first p0 in
    if x >=? as_ then
      (* mask := rune(x) << 31 >> 31 *)
      let mask := Z.shiftr (int32 (Z.shiftl x 31)) 31 in
      (Z.lor (Z.ldiff (byte_val p0) mask) (Z.land RuneError mask), 1)
    else
      let sz := Z.land x 7 in
      let accept := acceptRanges (Z.shiftr x 4) in
      if n <? sz then (RuneError, 1) else
      match t with
      | [] => (RuneError, 1) (* not reached: sz >= 2 *)
      | b1 :: t1 =>
        if (byte_val b1 <? lo accept) || (hi accept <? byte_val b1) then (RuneError, 1) else
        if sz <=? 2 then
          (Z.lor (Z.shiftl (Z.land (byte_val p0) mask2) 6) (Z.land (byte_val b1) maskx), 2)
        else
        match t1 with
        | [] => (RuneError, 1) (* not reached: sz >= 3 *)
        | b2 :: t2 =>
          if (byte_val b2 <? locb) || (hicb <? byte_val b2) then (RuneError, 1) else
          if sz <=? 3 then
            (Z.lor (Z.lor (Z.shiftl (Z.land (byte_val p0) mask3) 12)
                          (Z.shiftl (Z.land (byte_val b1) maskx) 6))
                   (Z.land (byte_val b2) maskx), 3)
          else
          match t2 with
          | [] => (RuneError, 1) (* not reached: sz = 4 *)
          | b3 :: _ =>
            if (byte_val b3 <? locb) || (hicb <? byte_val b3) then (RuneError, 1) else
            (Z.lor (Z.lor (Z.lor (Z.shiftl (Z.land (byte_val p0) mask4) 18)
                                 (Z.shiftl (Z.land (byte_val b1) maskx) 12))
                          (Z.shiftl (Z.land (byte_val b2) maskx) 6))
                   (Z.land (byte_val b3) maskx), 4)
          end
        end
      end
  end.

(** ** UTF-8 as the standard defines it *)

(** The byte of a value below 256. *)
Definition byte_of_Z (z : Z) : byte :=
  match Byte.of_N (Z.to_N z) with Some b => b | None => x00 end.

(** The Unicode scalar values: the code points outside the surrogate range. *)
Definition is_scalar (c : Z) : Prop :=
  0 <= c < 0xD800 \/ 0xE000 <= c <= 0x10FFFF.

(** The one to four bytes that encode a code point: [0xxxxxxx],
    [110xxxxx 10xxxxxx], [1110xxxx 10xxxxxx 10xxxxxx],
    [11110xxx 10xxxxxx 10xxxxxx 10xxxxxx]. *)
Definition utf8_encode (c : Z) : list byte :=
  if c <? 0x80 then [byte_of_Z c]
  else if c <? 0x800 then
    [byte_of_Z (0xC0 + c / 64); byte_of_Z (0x80 + c mod 64)]
  else if c <? 0x10000 then
    [byte_of_Z (0xE0 + c / 4096); byte_of_Z (0x80 + c / 64 mod 64);
     byte_of_Z (0x80 + c mod 64)]
  else
    [byte_of_Z (0xF0 + c / 262144); byte_of_Z (0x80 + c / 4096 mod 64);
     byte_of_Z (0x80 + c / 64 mod 64); byte_of_Z (0x80 + c mod 64)].

(** ** [DecodeRune] in arithmetic *)

(** The table [first], by ranges of the first byte. *)
Definition first_spec (v : Z) : Z :=
  if v <? 0x80 then as_
  else if v <? 0xC2 then xx
  else if v <? 0xE0 then s1
  else if v =? 0xE0 then s2
  else if v <? 0xED then s3
  else if v =? 0xED then s4
  else if v <? 0xF0 then s3
  else if v =? 0xF0 then s5
  else if v <? 0xF4 then s6
  else if v =? 0xF4 then s7
  else xx.

(** The bounds [acceptRanges] puts on the second byte, by first byte. *)
Definition accept_lo (v0 : Z) : Z :=
  if v0 =? 0xE0 then 0xA0 else if v0 =? 0xF0 then 0x90 else 0x80.
Definition accept_hi (v0 : Z) : Z :=
  if v0 =? 0xED then 0x9F else if v0 =? 0xF4 then 0x8F else 0xBF.
(** A continuation byte, [10xxxxxx]. *)
Definition continuation (v : Z) : bool := (0x80 <=? v) && (v <=? 0xBF).

(** What [DecodeRune] computes, with comparisons, [mod] and sums in the
    place of the table, the masks and the shifts. *)
Definition decode_arith (p : list byte) : Z * Z :=
  match p with
  | [] => (RuneError, 0)
  | p0 :: t =>
    let v0 := byte_val p0 in
    if v0 <? 0x80 then (v0, 1)
    else if (v0 <? 0xC2) || (0xF4 <? v0) then (RuneError, 1)
    else
      match t with
      | [] => (RuneError, 1)
      | b1 :: t1 =>
        let v1 := byte_val b1 in
        if negb ((accept_lo v0 <=? v1) && (v1 <=? accept_hi v0)) then (RuneError, 1)
        else if v0 <? 0xE0 then (v0 mod 32 * 64 + v1 mod 64, 2)
        else
          match t1 with
          | [] => (RuneError, 1)
          | b2 :: t2 =>
            let v2 := byte_val b2 in
            if negb (continuation v2) then (RuneError, 1)
            else if v0 <? 0xF0 then (v0 mod 16 * 4096 + v1 mod 64 * 64 + v2 mod 64, 3)
            else
              match t2 with
              | [] => (RuneError, 1)
              | b3 :: _ =>
                let v3 := byte_val b3 in
                if negb (continuation v3) then (RuneError, 1)
                else (v0 mod 8 * 262144 + v1 mod 64 * 4096 + v2 mod 64 * 64 + v3 mod 64, 4)
              end
          end
      end
  end.

(** ** Key events *)

(** Go's [error] values as this file meets them: an errno of a system call,
    and the wrapping done by [fmt.Errorf]. *)
Inductive error : Type :=
| Errno (code : Z)
| Errorf (msg : string) (cause : error).

(** [keyEvent] (declared in the package, outside keyboard.go): a key code,
    a rune and an error; the zero value [keyEvent{}] has them all zero. *)
Record keyEvent := { key : Z; rune : Z; err : option error }.

Definition keyEvent_zero : keyEvent := {| key := 0; rune := 0; err := None |}.

(** The declarations keyboard.go uses from the rest of the package: the
    key-code type [Key], given by its conversion [Key(x)] from an integer,
    and the three key constants. *)
Record KeyDecls := {
  Key : Z -> Z;
  KeyEsc : Z;
  KeySpace : Z;
  KeyBackspace2 : Z
}.

(** ** The decoder: [parse_escape_sequence] and [extract_event] *)

(** The loop [for i, key := range keys] of [parse_escape_sequence], from
    index [i] over the remaining entries [ks]. *)
Fixpoint parse_escape_from (K : KeyDecls) (i : Z) (ks : list (list byte))
    (bufstr : list byte) : Z * keyEvent :=
  match ks with
  | [] => (0, keyEvent_zero)
  | k :: ks' =>
    if HasPrefix bufstr k then
      (len k, {| key := Key K (0xFFFF - i); rune := 0; err := None |})
    else parse_escape_from K (i + 1) ks' bufstr
  end.

Definition parse_escape_sequence (K : KeyDecls) (keys : list (list byte))
    (buf : list byte) : Z * keyEvent :=
  parse_escape_from K 0 keys buf.

Definition extract_event (K : KeyDecls) (keys : list (list byte))
    (inbuf : list byte) : Z * keyEvent :=
  match inbuf with
  | [] => (0, keyEvent_zero)
  | b0 :: _ =>
    if byte_val b0 =? 27 then
      (* possible escape sequence *)
      let '(size, event) := parse_escape_sequence K keys inbuf in
      if negb (size =? 0) then (size, event)
      else (len inbuf, {| key := KeyEsc K; rune := 0; err := None |})
    else if (Key K (byte_val b0) <=? KeySpace K)
            || (Key K (byte_val b0) =? KeyBackspace2 K) then
      (1, {| key := Key K (byte_val b0); rune := 0; err := None |})
    else
      let '(r, n) := DecodeRune inbuf in
      if negb (r =? RuneError) then (n, {| key := 0; rune := r; err := None |})
      else (0, keyEvent_zero)
  end.

(** The first byte of a buffer that [extract_event] hands to
    [utf8.DecodeRune]: not the escape byte, above the Space key code and
    not the second Backspace code. *)
Definition rune_lead (K : KeyDecls) (b0 : byte) : Prop :=
  byte_val b0 <> 27 /\ KeySpace K < Key K (byte_val b0) /\
  Key K (byte_val b0) <> KeyBackspace2 K.

(** ** The event producer: [produceEvent] and [inputEventsProducer] *)

(** [input_event]: a chunk read from the terminal, or the error of the read. *)
Record input_event := { data : list byte; ierr : option error }.

(** Where the producer goroutine stands. *)
Inductive producer_pc : Type :=
| P_start       (* at the entry of inputEventsProducer *)
| P_select      (* blocked in [select { case ev := <-input_buf ; case <-quit }] *)
| P_produce (event : keyEvent) (ret : bool)
                (* blocked in produceEvent(event):
                   [select { case input_comm <- event ; case <-quit }];
                   [ret]: the producer returns when produceEvent does *)
| P_panic       (* run-time panic: slice bounds out of range *)
| P_stopped.    (* inputEventsProducer has returned *)

(** The producer and its buffer, the package variable [inbuf]. *)
Record producer := { p_pc : producer_pc; inbuf : list byte }.

(** [size, event := extract_event(inbuf)] and, if [size != 0],
    [copy(inbuf, inbuf[size:]); inbuf = inbuf[:len(inbuf)-size];
    produceEvent(event)]; then the loop's select. *)
Definition extract_and_produce (K : KeyDecls) (keys : list (list byte))
    (buf : list byte) : producer :=
  let '(size, event) := extract_event K keys buf in
  if negb (size =? 0) then
    if (0 <=? size) && (size <=? len buf) then
      {| p_pc := P_produce event false; inbuf := skipn (Z.to_nat size) buf |}
    else {| p_pc := P_panic; inbuf := buf |}
  else {| p_pc := P_select; inbuf := buf |}.

(** What a blocked producer is woken by. *)
Inductive producer_event : Type :=
| PE_run                      (* the goroutine starts running *)
| PE_chunk (ev : input_event) (* [ev := <-input_buf] *)
| PE_quit                     (* [<-quit] *)
| PE_sent.                    (* [input_comm <- event] was received *)

(** One move of the producer; [None] when the event cannot happen where the
    producer stands. *)
Definition producer_step (K : KeyDecls) (keys : list (list byte))
    (p : producer) (e : producer_event) : option producer :=
  match p_pc p, e with
  | P_start, PE_run => Some (extract_and_produce K keys (inbuf p))
  | P_select, PE_chunk ev =>
    match ierr ev with
    | Some e =>
      Some {| p_pc := P_produce {| key := 0; rune := 0; err := Some e |} true;
              inbuf := inbuf p |}
    | None => Some (extract_and_produce K keys (inbuf p ++ data ev))
    end
  | P_select, PE_quit => Some {| p_pc := P_stopped; inbuf := inbuf p |}
  | P_produce _ ret, PE_sent
  | P_produce _ ret, PE_quit =>
    Some {| p_pc := if ret then P_stopped else P_select; inbuf := inbuf p |}
  | _, _ => None
  end.

(** ** The reader goroutine of [initConsole] *)

(** [unix.EAGAIN] and [unix.EWOULDBLOCK] (the same errno on Linux). *)
Definition EAGAIN : error := Errno 11.
Definition EWOULDBLOCK : error := Errno 11.

Fixpoint error_eqb (a b : error) : bool :=
  match a, b with
  | Errno x, Errno y => x =? y
  | Errorf m x, Errorf n y => String.eqb m n && error_eqb x y
  | _, _ => false
  end.

(** What [syscall.Read(in, buf)] gave: the bytes read ([bytesRead] of them,
    at the front of [buf]), or an error. *)
Inductive read_result : Type :=
| ReadOk (bytes : list byte)
| ReadErr (e : error).

Inductive reader_pc : Type :=
| R_select      (* blocked in the outer [select { case <-sigio ; case <-quit }] *)
| R_read        (* in the inner loop, about to call syscall.Read *)
| R_deliver (c : input_event)
                (* blocked in [select { case input_buf <- c ; case <-quit }] *)
| R_stopped.    (* the goroutine has returned *)

Inductive reader_event : Type :=
| RE_sigio                    (* [<-sigio] *)
| RE_quit                     (* [<-quit] *)
| RE_read (r : read_result)   (* syscall.Read returned *)
| RE_sent.                    (* [input_buf <- c] was received *)

Definition reader_step (r : reader_pc) (e : reader_event) : option reader_pc :=
  match r, e with
  | R_select, RE_sigio => Some R_read
  | R_select, RE_quit => Some R_stopped
  | R_read, RE_read (ReadOk bytes) =>
    Some (R_deliver {| data := bytes; ierr := None |})
  | R_read, RE_read (ReadErr e) =>
    if error_eqb e EAGAIN || error_eqb e EWOULDBLOCK then Some R_select (* break *)
    else (* bytesRead = 0 *) Some (R_deliver {| data := []; ierr := Some e |})
  | R_deliver _, RE_sent => Some R_read (* continue *)
  | R_deliver _, RE_quit => Some R_stopped
  | _, _ => None
  end.

(** ** The tasks together, with [releaseConsole]'s [quit <- 1] *)

(** The caller of [releaseConsole]. *)
Inductive closer_pc : Type :=
| C_idle        (* releaseConsole not called *)
| C_sending     (* blocked in [quit <- 1] *)
| C_done.       (* the value was received; releaseConsole went on *)

Record system := {
  reader : reader_pc;
  prod : producer;
  sigio_pending : bool;       (* a signal waits in [sigio], a channel of capacity 1 *)
  closer : closer_pc;
  delivered : list keyEvent   (* what the consumer received from input_comm, in order *)
}.

(** The things that can happen next; which of them happens is the
    scheduler's and the environment's choice. *)
Inductive sys_event : Type :=
| S_signal                    (* SIGIO is notified to [sigio] (dropped when full) *)
| S_sigio                     (* the reader receives from [sigio] *)
| S_read (r : read_result)    (* the reader's syscall.Read returns *)
| S_chunk                     (* [input_buf]: reader sends, producer receives *)
| S_run                       (* the producer goroutine starts running *)
| S_event                     (* [input_comm]: producer sends, consumer receives *)
| S_release                   (* releaseConsole is called and reaches [quit <- 1] *)
| S_quit_reader               (* [quit]: closer sends, reader receives *)
| S_quit_producer.            (* [quit]: closer sends, producer receives *)

Definition set_reader (s : system) (r : reader_pc) : system :=
  {| reader := r; prod := prod s; sigio_pending := sigio_pending s;
     closer := closer s; delivered := delivered s |}.

Definition set_prod (s : system) (p : producer) : system :=
  {| reader := reader s; prod := p; sigio_pending := sigio_pending s;
     closer := closer s; delivered := delivered s |}.

Definition set_closer (s : system) (c : closer_pc) : system :=
  {| reader := reader s; prod := prod s; sigio_pending := sigio_pending s;
     closer := c; delivered := delivered s |}.

Definition system_step (K : KeyDecls) (keys : list (list byte))
    (s : system) (e : sys_event) : option system :=
  match e with
  | S_signal =>
    Some {| reader := reader s; prod := prod s; sigio_pending := true;
            closer := closer s; delivered := delivered s |}
  | S_sigio =>
    if sigio_pending s then
      match reader_step (reader s) RE_sigio with
      | Some r =>
        Some {| reader := r; prod := prod s; sigio_pending := false;
                closer := closer s; delivered := delivered s |}
      | None => None
      end
    else None
  | S_read res =>
    match reader_step (reader s) (RE_read res) with
    | Some r => Some (set_reader s r)
    | None => None
    end
  | S_chunk =>
    match reader s with
    | R_deliver c =>
      match reader_step (reader s) RE_sent,
            producer_step K keys (prod s) (PE_chunk c) with
      | Some r, Some p => Some (set_prod (set_reader s r) p)
      | _, _ => None
      end
    | _ => None
    end
  | S_run =>
    match producer_step K keys (prod s) PE_run with
    | Some p => Some (set_prod s p)
    | None => None
    end
  | S_event =>
    match p_pc (prod s), producer_step K keys (prod s) PE_sent with
    | P_produce event _, Some p =>
      Some {| reader := reader s; prod := p; sigio_pending := sigio_pending s;
              closer := closer s; delivered := delivered s ++ [event] |}
    | _, _ => None
    end
  | S_release =>
    match closer s with
    | C_idle => Some (set_closer s C_sending)
    | _ => None
    end
  | S_quit_reader =>
    match closer s, reader_step (reader s) RE_quit with
    | C_sending, Some r => Some (set_closer (set_reader s r) C_done)
    | _, _ => None
    end
  | S_quit_producer =>
    match closer s, producer_step K keys (prod s) PE_quit with
    | C_sending, Some p => Some (set_closer (set_prod s p) C_done)
    | _, _ => None
    end
  end.

(** A schedule, run from [s]; [None] when one of its events cannot happen. *)
Fixpoint run (K : KeyDecls) (keys : list (list byte)) (s : system)
    (es : list sys_event) : option system :=
  match es with
  | [] => Some s
  | e :: es' =>
    match system_step K keys s e with
    | Some s' => run K keys s' es'
    | None => None
    end
  end.

(** ** The console: [initConsole] *)

(** What [initConsole] arms, step by step. *)
Record console := {
  out_open : bool;        (* [out]: /dev/tty is open for writing *)
  in_open : bool;         (* [in]: /dev/tty is open for reading *)
  sigio_notified : bool;  (* signal.Notify(sigio, unix.SIGIO) is in effect *)
  in_async : bool;        (* O_ASYNC|O_NONBLOCK are set on [in] *)
  in_owned : bool;        (* F_SETOWN made this process the owner of [in] *)
  orig_saved : bool;      (* [orig_tios] holds the terminal's attributes *)
  raw : bool;             (* the raw-mode attributes are applied *)
  tasks_started : bool    (* the two goroutines were started *)
}.

Definition console_zero : console :=
  {| out_open := false; in_open := false; sigio_notified := false;
     in_async := false; in_owned := false; orig_saved := false;
     raw := false; tasks_started := false |}.

(** The error (or [None] for nil) of every call [initConsole] makes to the
    operating system and to [setup_term], and the platform. *)
Record setup_calls := {
  OpenFile_err : option error;    (* os.OpenFile("/dev/tty", unix.O_WRONLY, 0) *)
  Open_err : option error;        (* syscall.Open("/dev/tty", unix.O_RDONLY, 0) *)
  setup_term_err : option error;  (* setup_term() *)
  SETFL_err : option error;       (* fcntl(unix.F_SETFL, ...) *)
  SETOWN_err : option error;      (* fcntl(unix.F_SETOWN, ...) *)
  GETATTR_err : option error;     (* ioctl(ioctl_GETATTR, &orig_tios) *)
  SETATTR_err : option error;     (* ioctl(ioctl_SETATTR, &tios) *)
  darwin : bool                   (* runtime.GOOS == "darwin" *)
}.

Definition is_nil (e : option error) : bool :=
  match e with None => true | Some _ => false end.

Definition set_out (b : bool) (c : console) : console :=
  {| out_open := b; in_open := in_open c; sigio_notified := sigio_notified c;
     in_async := in_async c; in_owned := in_owned c; orig_saved := orig_saved c;
     raw := raw c; tasks_started := tasks_started c |}.

Definition set_in (b : bool) (c : console) : console :=
  {| out_open := out_open c; in_open := b; sigio_notified := sigio_notified c;
     in_async := in_async c; in_owned := in_owned c; orig_saved := orig_saved c;
     raw := raw c; tasks_started := tasks_started c |}.

Definition set_notified (c : console) : console :=
  {| out_open := out_open c; in_open := in_open c; sigio_notified := true;
     in_async := in_async c; in_owned := in_owned c; orig_saved := orig_saved c;
     raw := raw c; tasks_started := tasks_started c |}.

Definition set_async (c : console) : console :=
  {| out_open := out_open c; in_open := in_open c; sigio_notified := sigio_notified c;
     in_async := true; in_owned := in_owned c; orig_saved := orig_saved c;
     raw := raw c; tasks_started := tasks_started c |}.

Definition set_owned (c : console) : console :=
  {| out_open := out_open c; in_open := in_open c; sigio_notified := sigio_notified c;
     in_async := in_async c; in_owned := true; orig_saved := orig_saved c;
     raw := raw c; tasks_started := tasks_started c |}.

Definition set_saved (c : console) : console :=
  {| out_open := out_open c; in_open := in_open c; sigio_notified := sigio_notified c;
     in_async := in_async c; in_owned := in_owned c; orig_saved := true;
     raw := raw c; tasks_started := tasks_started c |}.

Definition set_raw (c : console) : console :=
  {| out_open := out_open c; in_open := in_open c; sigio_notified := sigio_notified c;
     in_async := in_async c; in_owned := in_owned c; orig_saved := orig_saved c;
     raw := true; tasks_started := tasks_started c |}.

Definition set_started (c : console) : console :=
  {| out_open := out_open c; in_open := in_open c; sigio_notified := sigio_notified c;
     in_async := in_async c; in_owned := in_owned c; orig_saved := orig_saved c;
     raw := raw c; tasks_started := true |}.

(** [initConsole]: the console it leaves and the error it returns.  A
    failed open leaves [out] nil, or [in] negative. *)
Definition initConsole (env : setup_calls) (c : console) : console * option error :=
  match OpenFile_err env with
  | Some e => (set_out false c, Some e)
  | None =>
  let c := set_out true c in
  match Open_err env with
  | Some e => (set_in false c, Some e)
  | None =>
  let c := set_in true c in
  match setup_term_err env with
  | Some e => (c, Some (Errorf "Error while reading terminfo data: %v" e))
  | None =>
  let c := set_notified c in
  match SETFL_err env with
  | Some e => (c, Some e)
  | None =>
  let c := set_async c in
  let err := SETOWN_err env in
  if negb (darwin env) && negb (is_nil err) then (c, err) else
  let c := if is_nil err then set_owned c else c in
  match GETATTR_err env with
  | Some e => (c, Some e)
  | None =>
  let c := set_saved c in
  match SETATTR_err env with
  | Some e => (c, Some e)
  | None => (set_started (set_raw c), None)
  end end end end end end.

(** The state of the two tasks when [initConsole] has started them. *)
Definition system_started (buf : list byte) : system :=
  {| reader := R_select; prod := {| p_pc := P_start; inbuf := buf |};
     sigio_pending := false; closer := C_idle; delivered := [] |}.

(** ** Tables and inputs of the examples *)

(** The declarations of the examples: a 16-bit unsigned [Key], and the
    ASCII codes of Esc (0x1B), Space (0x20) and DEL (0x7F) for the three
    constants. *)
Definition K16 : KeyDecls :=
  {| Key := fun z => z mod 65536; KeyEsc := 27; KeySpace := 32; KeyBackspace2 := 127 |}.

Definition esc_OP : list byte := [x1b; x4f; x50].  (* "\x1bOP" *)
Definition esc_OQ : list byte := [x1b; x4f; x51].  (* "\x1bOQ" *)
Definition esc_O : list byte := [x1b; x4f].        (* "\x1bO" *)
Definition esc_Z : list byte := [x1b; x5a].        (* "\x1bZ" *)

(** The table of the scenarios: index 0 (key 0xFFFF, F1) and 1 (0xFFFE, F2). *)
Definition keys_F1_F2 : list (list byte) := [esc_OP; esc_OQ].

Definition key_event (k : Z) : keyEvent := {| key := k; rune := 0; err := None |}.
Definition rune_event (r : Z) : keyEvent := {| key := 0; rune := r; err := None |}.

(** Both tasks blocked in their selects on an empty buffer, the reader
    holding the chunk 0x1B 'O' 'P' 'a' for the producer. *)
Definition chunk_OPa : input_event := {| data := [x1b; x4f; x50; x61]; ierr := None |}.

Definition holding_OPa : system :=
  {| reader := R_deliver chunk_OPa; prod := {| p_pc := P_select; inbuf := [] |};
     sigio_pending := false; closer := C_idle; delivered := [] |}.

Definition after_F1 : system :=
  {| reader := R_read; prod := {| p_pc := P_select; inbuf := [x61] |};
     sigio_pending := false; closer := C_idle; delivered := [key_event 0xFFFF] |}.

(** Both tasks blocked in their selects, [releaseConsole] blocked in
    [quit <- 1]. *)
Definition both_blocked : system :=
  {| reader := R_select; prod := {| p_pc := P_select; inbuf := [] |};
     sigio_pending := false; closer := C_sending; delivered := [] |}.

(** /dev/tty opens for writing, then fails to open for reading (ENOENT). *)
Definition second_open_fails : setup_calls :=
  {| OpenFile_err := None; Open_err := Some (Errno 2); setup_term_err := None;
     SETFL_err := None; SETOWN_err := None; GETATTR_err := None;
     SETATTR_err := None; darwin := false |}.

(** Both tasks at work on an empty buffer: the reader about to read, the
    producer in its select. *)
Definition reading : system :=
  {| reader := R_read; prod := {| p_pc := P_select; inbuf := [] |};
     sigio_pending := false; closer := C_idle; delivered := [] |}.

(** ** Prefixes and first matches *)

(** [k] is a prefix of [s]. *)
Definition is_prefix (k s : list byte) : Prop := exists t, s = k ++ t.

(** [s] is a prefix of [k] and shorter than it. *)
Definition proper_prefix (s k : list byte) : Prop := exists t, t <> [] /\ k = s ++ t.

(** [k] is the first entry of the table, at index [i], that is a prefix of
    [buf]. *)
Definition first_match (keys : list (list byte)) (buf : list byte)
    (i : nat) (k : list byte) : Prop :=
  nth_error keys i = Some k /\ is_prefix k buf /\
  forall j k', (j < i)%nat -> nth_error keys j = Some k' -> ~ is_prefix k' buf.

(** ** The tasks' blocking waits and the value of [quit] *)

(** The reader is blocked in one of its two selects. *)
Definition reader_blocked (r : reader_pc) : Prop :=
  r = R_select \/ exists c, r = R_deliver c.

(** The producer is blocked in its loop's select, or in a [produceEvent]
    after which it loops again. *)
Definition producer_blocked (pc : producer_pc) : Prop :=
  pc = P_select \/ exists event, pc = P_produce event false.

(** The value sent by [releaseConsole] was received, and either the reader
    has not returned, or it has and the producer is blocked. *)
Definition quit_spent (s : system) : Prop :=
  closer s = C_done /\
  (reader s <> R_stopped \/
   (reader s = R_stopped /\ producer_blocked (p_pc (prod s)))).

(** ** Further notions about the decoder *)

(** The event the producer sends for a failed read. *)
Definition error_event (e : error) : keyEvent :=
  {| key := 0; rune := 0; err := Some e |}.

(** A first byte that starts no UTF-8 encoding: a continuation byte, 0xC0,
    0xC1, or a byte above 0xF4. *)
Definition invalid_lead (b0 : byte) : Prop :=
  0x80 <= byte_val b0 < 0xC2 \/ 0xF4 < byte_val b0.

(** A buffer on which the decoder returns 0 whatever is appended to it. *)
Definition stuck (K : KeyDecls) (keys : list (list byte)) (buf : list byte) : Prop :=
  forall more, extract_event K keys (buf ++ more) = (0, keyEvent_zero).

(** ** Further notions about the tasks *)

(** An event that carries no error. *)
Definition no_error (ev : keyEvent) : Prop := err ev = None.

(** The errors of a read that would block. *)
Definition would_block (e : error) : Prop := e = EAGAIN \/ e = EWOULDBLOCK.

(** How many chunks the producer receives in a schedule. *)
Fixpoint count_chunks (es : list sys_event) : nat :=
  match es with
  | [] => 0
  | S_chunk :: es' => S (count_chunks es')
  | _ :: es' => count_chunks es'
  end.

(** The events the producer still has to send: the one of a pending
    [produceEvent], if any. *)
Definition pending (pc : producer_pc) : list keyEvent :=
  match pc with
  | P_produce event _ => [event]
  | _ => []
  end.

(** The console [initConsole] leaves when every step has succeeded;
    [owned] tells whether F_SETOWN did. *)
Definition console_armed (owned : bool) : console :=
  {| out_open := true; in_open := true; sigio_notified := true;
     in_async := true; in_owned := owned; orig_saved := true;
     raw := true; tasks_started := true |}.

(** Every call of [initConsole] that must succeed does, in [env]. *)
Definition setup_succeeds (env : setup_calls) : Prop :=
  OpenFile_err env = None /\ Open_err env = None /\ setup_term_err env = None /\
  SETFL_err env = None /\ (darwin env = true \/ SETOWN_err env = None) /\
  GETATTR_err env = None /\ SETATTR_err env = None.

(** With a stuck buffer the producer is in its select, about to send the
    error of a read, or stopped; the consumer has received [d0] and at most
    that error after it. *)
Definition stalled (buf : list byte) (d0 : list keyEvent) (s : system) : Prop :=
  (exists more, inbuf (prod s) = buf ++ more) /\
  ((p_pc (prod s) = P_select /\ delivered s = d0) \/
   (exists e, p_pc (prod s) = P_produce (error_event e) true /\ delivered s = d0) \/
   (p_pc (prod s) = P_stopped /\
    (delivered s = d0 \/ exists e, delivered s = d0 ++ [error_event e]))).

(** The consumer has received no error event, and the producer has none to
    send but the one of a failed read, after which it returns; or the
    producer has returned and the error event is the last one received. *)
Definition error_comes_last (s : system) : Prop :=
  (Forall no_error (delivered s) /\
   match p_pc (prod s) with
   | P_produce event false => no_error event
   | P_produce event true => exists e, event = error_event e
   | _ => True
   end) \/
  (p_pc (prod s) = P_stopped /\
   exists d e, delivered s = d ++ [error_event e] /\ Forall no_error d).

(** What the producer has sent and has to send, counted. *)
Definition events_made (s : system) : nat :=
  length (delivered s) + length (pending (p_pc (prod s))).

(** The producer has not run yet: its first decoding is still to come. *)
Definition first_decoding (s : system) : nat :=
  match p_pc (prod s) with P_start => 1 | _ => 0 end.

(** No would-block error is on its way to the consumer or with it. *)
Definition not_would_block (ev : keyEvent) : Prop :=
  forall e, err ev = Some e -> ~ would_block e.

Definition would_block_kept (s : system) : Prop :=
  Forall not_would_block (delivered s) /\
  Forall not_would_block (pending (p_pc (prod s))) /\
  (forall c e, reader s = R_deliver c -> ierr c = Some e -> ~ would_block e).

(** The reader is alive as long as the value of [quit] was not received. *)
Definition reader_alive_until_quit (s : system) : Prop :=
  closer s <> C_done -> reader s <> R_stopped.

(** ** States of the further examples *)

(** The reader at work, the producer in its select on the stuck buffer
    [0x80]. *)
Definition stuck_on_x80 : system :=
  {| reader := R_read; prod := {| p_pc := P_select; inbuf := [x80] |};
     sigio_pending := false; closer := C_idle; delivered := [] |}.

(** A run from the start: the key 'a' is read and delivered, then a read
    fails with EIO and the error is delivered. *)
Definition key_then_error : list sys_event :=
  [S_run; S_signal; S_sigio; S_read (ReadOk [x61]); S_chunk; S_event;
   S_read (ReadErr (Errno 5)); S_chunk; S_event].

Definition after_key_then_error : system :=
  {| reader := R_read; prod := {| p_pc := P_stopped; inbuf := [] |};
     sigio_pending := false; closer := C_idle;
     delivered := [rune_event 97; error_event (Errno 5)] |}.

(** A run from the start to [releaseConsole]'s send, the reader reading. *)
Definition release_while_reading : list sys_event :=
  [S_run; S_signal; S_sigio; S_release].

Definition released_while_reading : system :=
  {| reader := R_read; prod := {| p_pc := P_select; inbuf := [] |};
     sigio_pending := false; closer := C_sending; delivered := [] |}.

(** ** Typing text, one character for each chunk *)

(** The tasks at work on an empty buffer, the consumer having received [d]. *)
Definition reading_with (d : list keyEvent) : system :=
  {| reader := R_read; prod := {| p_pc := P_select; inbuf := [] |};
     sigio_pending := false; closer := C_idle; delivered := d |}.

(** The scalar value [c] is read as one chunk, handed to the producer and
    its event received by the consumer. *)
Definition type_scalar (c : Z) : list sys_event :=
  [S_read (ReadOk (utf8_encode c)); S_chunk; S_event].

Definition type_text (cs : list Z) : list sys_event := flat_map type_scalar cs.

(** A scalar value the decoder returns as a rune: not U+FFFD, and with an
    encoding whose first byte is handed to the rune decoder. *)
Definition typable (K : KeyDecls) (c : Z) : Prop :=
  is_scalar c /\ c <> 0xFFFD /\
  exists b0 tl, utf8_encode c = b0 :: tl /\ rune_lead K b0.


(* ================================================================== *)
(** * Part II: properties                                              *)
(* ================================================================== *)

(** ** Lengths and prefixes *)

Lemma len_nonneg {A : Type} (l : list A) : 0 <= len l.
Proof. unfold len. lia. Qed.

Lemma len_cons {A : Type} (a : A) (l : list A) : len (a :: l) = len l + 1.
Proof. unfold len. simpl length. lia. Qed.

Lemma bytes_eqb_eq (a b : list byte) : bytes_eqb a b = true <-> a = b.
Proof.
  revert b. induction a as [|x a IH]; intros [|y b]; simpl; split; try congruence.
  - intros H. apply andb_true_iff in H as [Hx Hab].
    apply Byte.byte_dec_bl in Hx. apply IH in Hab. congruence.
  - intros H. inversion H; subst. apply andb_true_iff. split.
    + now apply Byte.byte_dec_lb.
    + now apply IH.
Qed.

Lemma HasPrefix_spec (s k : list byte) : HasPrefix s k = true <-> is_prefix k s.
Proof.
  unfold HasPrefix, is_prefix. rewrite andb_true_iff, bytes_eqb_eq, Z.leb_le. split.
  - intros [_ H]. exists (skipn (length k) s).
    rewrite <- H at 1. symmetry. apply firstn_skipn.
  - intros [t ->]. split.
    + unfold len. rewrite length_app. lia.
    + rewrite firstn_app, Nat.sub_diag, firstn_all. simpl. apply app_nil_r.
Qed.

Lemma HasPrefix_false (s k : list byte) : HasPrefix s k = false <-> ~ is_prefix k s.
Proof.
  rewrite <- HasPrefix_spec. destruct (HasPrefix s k); split; congruence.
Qed.

Lemma is_prefix_len (k s : list byte) : is_prefix k s -> len k <= len s.
Proof. intros [t ->]. unfold len. rewrite length_app. lia. Qed.

Lemma is_prefix_nil (s : list byte) : is_prefix [] s.
Proof. now exists s. Qed.

(** ** The table scan *)

Section Scan.
Variable K : KeyDecls.

(** No entry is a prefix of the buffer: the scan ends with size 0. *)
Lemma parse_escape_from_none (ks : list (list byte)) (buf : list byte) (i : Z) :
  (forall k, In k ks -> ~ is_prefix k buf) ->
  parse_escape_from K i ks buf = (0, keyEvent_zero).
Proof.
  revert i. induction ks as [|k ks IH]; intros i H; cbn [parse_escape_from]; [reflexivity|].
  assert (Hk : HasPrefix buf k = false) by (apply HasPrefix_false, H; now left).
  rewrite Hk. apply IH. intros k' Hin. apply H. now right.
Qed.

(** The scan stops at the first entry that is a prefix of the buffer. *)
Lemma parse_escape_from_first (pre post : list (list byte)) (k buf : list byte) (i : Z) :
  (forall k', In k' pre -> ~ is_prefix k' buf) ->
  is_prefix k buf ->
  parse_escape_from K i (pre ++ k :: post) buf
  = (len k, key_event (Key K (0xFFFF - (i + len pre)))).
Proof.
  revert i. induction pre as [|p pre IH]; intros i Hpre Hk; cbn [app parse_escape_from].
  - apply HasPrefix_spec in Hk. rewrite Hk.
    replace (i + len (@nil (list byte))) with i by (unfold len; simpl; lia).
    reflexivity.
  - assert (Hp : HasPrefix buf p = false) by (apply HasPrefix_false, Hpre; now left).
    rewrite Hp, IH; [| intros k' Hin; apply Hpre; now right | assumption].
    rewrite len_cons. do 3 f_equal. lia.
Qed.

(** The scan either finds nothing, or stops on a table entry. *)
Lemma parse_escape_from_cases (ks : list (list byte)) (buf : list byte) (i : Z) :
  parse_escape_from K i ks buf = (0, keyEvent_zero) \/
  exists (j : nat) (k : list byte),
    nth_error ks j = Some k /\ is_prefix k buf /\
    parse_escape_from K i ks buf = (len k, key_event (Key K (0xFFFF - (i + Z.of_nat j)))).
Proof.
  revert i. induction ks as [|k ks IH]; intros i; cbn [parse_escape_from]; [now left|].
  destruct (HasPrefix buf k) eqn:Hk.
  - right. exists 0%nat, k. cbn [nth_error Z.of_nat]. rewrite Z.add_0_r.
    apply HasPrefix_spec in Hk. auto.
  - destruct (IH (i + 1)) as [H | (j & k' & Hn & Hp & H)]; [now left|].
    right. exists (S j), k'. cbn [nth_error]. rewrite H. repeat split; try assumption.
    do 3 f_equal. lia.
Qed.

Lemma first_match_split (keys : list (list byte)) (buf : list byte) (i : nat) (k : list byte) :
  first_match keys buf i k ->
  exists pre post, keys = pre ++ k :: post /\ length pre = i /\
                   forall k', In k' pre -> ~ is_prefix k' buf.
Proof.
  intros (Hn & _ & Hfirst).
  destruct (nth_error_split keys i Hn) as (pre & post & -> & Hlen).
  exists pre, post. repeat split; try assumption.
  intros k' Hin. destruct (In_nth_error pre k' Hin) as [j Hj].
  assert (Hlt : (j < i)%nat).
  { rewrite <- Hlen. apply nth_error_Some. congruence. }
  apply (Hfirst j k' Hlt). rewrite nth_error_app1; [assumption | lia].
Qed.

Lemma parse_escape_sequence_first_match
    (keys : list (list byte)) (buf : list byte) (i : nat) (k : list byte) :
  first_match keys buf i k ->
  parse_escape_sequence K keys buf = (len k, key_event (Key K (0xFFFF - Z.of_nat i))).
Proof.
  intros Hfm. destruct (first_match_split _ _ _ _ Hfm) as (pre & post & -> & Hlen & Hpre).
  destruct Hfm as (_ & Hk & _). unfold parse_escape_sequence.
  rewrite parse_escape_from_first by assumption.
  unfold len. rewrite Hlen. reflexivity.
Qed.
End Scan.

(** ** [utf8.DecodeRune] *)

Lemma DecodeRune_size (p : list byte) : 0 <= snd (DecodeRune p) <= len p.
Proof.
  unfold DecodeRune.
  destruct p as [|p0 [|b1 [|b2 [|b3 t]]]]; cbv zeta;
    repeat rewrite len_cons;
    repeat match goal with
           | |- context [if ?c then _ else _] => destruct c
           end; cbn [snd];
    pose proof (@len_nonneg byte []); try pose proof (len_nonneg t); lia.
Qed.

(** *** The arithmetic form of [DecodeRune] *)

Lemma byte_val_range (b : byte) : 0 <= byte_val b < 256.
Proof. unfold byte_val. pose proof (Byte.to_N_bounded b). lia. Qed.

Lemma byte_val_of_Z (z : Z) : 0 <= z < 256 -> byte_val (byte_of_Z z) = z.
Proof.
  intros H. unfold byte_of_Z, byte_val.
  destruct (Byte.of_N (Z.to_N z)) as [b|] eqn:E.
  - apply Byte.to_of_N in E. rewrite E. lia.
  - apply Byte.of_N_None_iff in E. lia.
Qed.

Lemma byte_of_Z_val (b : byte) : byte_of_Z (byte_val b) = b.
Proof.
  unfold byte_of_Z, byte_val. rewrite N2Z.id, Byte.of_to_N. reflexivity.
Qed.

(** The table [first] is [first_spec], entry by entry. *)
Lemma first_classify (p0 : byte) : first p0 = first_spec (byte_val p0).
Proof. destruct p0; reflexivity. Qed.

Lemma lor_shiftl_add (a b k : Z) :
  0 <= k -> 0 <= b < 2 ^ k -> Z.lor (Z.shiftl a k) b = a * 2 ^ k + b.
Proof.
  intros Hk Hb. rewrite <- Z.shiftl_mul_pow2 by assumption.
  assert (H0 : Z.land (Z.shiftl a k) b = 0).
  { apply Z.bits_inj'. intros n Hn. rewrite Z.land_spec, Z.bits_0.
    destruct (Z.lt_ge_cases n k) as [Hlt | Hge].
    - rewrite Z.shiftl_spec_low by assumption. reflexivity.
    - destruct (Z.eq_dec b 0) as [-> | Hnz].
      + rewrite Z.bits_0. apply andb_false_r.
      + rewrite (Z.bits_above_log2 b n); [apply andb_false_r | lia |].
        apply Z.lt_le_trans with k; [|assumption].
        apply Z.log2_lt_pow2; lia. }
  rewrite <- Z.lxor_lor by assumption. symmetry. now apply Z.add_nocarry_lxor.
Qed.

Lemma land_mod (a m k M : Z) :
  0 <= k -> m = Z.ones k -> M = 2 ^ k -> Z.land a m = a mod M.
Proof. intros Hk -> ->. now apply Z.land_ones. Qed.

Lemma shiftl_mul (a k M : Z) : 0 <= k -> M = 2 ^ k -> Z.shiftl a k = a * M.
Proof. intros Hk ->. now apply Z.shiftl_mul_pow2. Qed.

Lemma lor_shiftl (a b k M : Z) :
  0 <= k -> M = 2 ^ k -> 0 <= b < M -> Z.lor (Z.shiftl a k) b = a * M + b.
Proof. intros Hk -> Hb. now apply lor_shiftl_add. Qed.

Lemma rune2_arith (v0 v1 : Z) :
  Z.lor (Z.shiftl (Z.land v0 mask2) 6) (Z.land v1 maskx) = v0 mod 32 * 64 + v1 mod 64.
Proof.
  rewrite (land_mod v0 mask2 5 32), (land_mod v1 maskx 6 64) by (reflexivity || lia).
  pose proof (Z.mod_pos_bound v1 64 ltac:(lia)) as H1.
  now rewrite (lor_shiftl _ _ 6 64) by (reflexivity || lia).
Qed.

Lemma rune3_arith (v0 v1 v2 : Z) :
  Z.lor (Z.lor (Z.shiftl (Z.land v0 mask3) 12) (Z.shiftl (Z.land v1 maskx) 6))
        (Z.land v2 maskx)
  = v0 mod 16 * 4096 + v1 mod 64 * 64 + v2 mod 64.
Proof.
  rewrite (land_mod v0 mask3 4 16), (land_mod v1 maskx 6 64), (land_mod v2 maskx 6 64)
    by (reflexivity || lia).
  pose proof (Z.mod_pos_bound v1 64 ltac:(lia)) as H1.
  pose proof (Z.mod_pos_bound v2 64 ltac:(lia)) as H2.
  rewrite (shiftl_mul (v1 mod 64) 6 64) by (reflexivity || lia).
  rewrite (lor_shiftl _ _ 12 4096) by (reflexivity || lia).
  replace (v0 mod 16 * 4096 + v1 mod 64 * 64)
    with (Z.shiftl (v0 mod 16 * 64 + v1 mod 64) 6)
    by (rewrite (shiftl_mul _ 6 64) by (reflexivity || lia); lia).
  rewrite (lor_shiftl _ _ 6 64) by (reflexivity || lia).
  rewrite ?(shiftl_mul _ 6 64), ?(shiftl_mul _ 12 4096) by (reflexivity || lia). lia.
Qed.

Lemma rune4_arith (v0 v1 v2 v3 : Z) :
  Z.lor (Z.lor (Z.lor (Z.shiftl (Z.land v0 mask4) 18) (Z.shiftl (Z.land v1 maskx) 12))
               (Z.shiftl (Z.land v2 maskx) 6))
        (Z.land v3 maskx)
  = v0 mod 8 * 262144 + v1 mod 64 * 4096 + v2 mod 64 * 64 + v3 mod 64.
Proof.
  rewrite (land_mod v0 mask4 3 8), (land_mod v1 maskx 6 64), (land_mod v2 maskx 6 64),
    (land_mod v3 maskx 6 64) by (reflexivity || lia).
  pose proof (Z.mod_pos_bound v1 64 ltac:(lia)) as H1.
  pose proof (Z.mod_pos_bound v2 64 ltac:(lia)) as H2.
  pose proof (Z.mod_pos_bound v3 64 ltac:(lia)) as H3.
  rewrite (shiftl_mul (v1 mod 64) 12 4096) by (reflexivity || lia).
  rewrite (shiftl_mul (v2 mod 64) 6 64) by (reflexivity || lia).
  rewrite (lor_shiftl _ _ 18 262144) by (reflexivity || lia).
  replace (v0 mod 8 * 262144 + v1 mod 64 * 4096)
    with (Z.shiftl (v0 mod 8 * 64 + v1 mod 64) 12)
    by (rewrite (shiftl_mul _ 12 4096) by (reflexivity || lia); lia).
  rewrite (lor_shiftl _ _ 12 4096) by (reflexivity || lia).
  replace ((v0 mod 8 * 64 + v1 mod 64) * 4096 + v2 mod 64 * 64)
    with (Z.shiftl ((v0 mod 8 * 64 + v1 mod 64) * 64 + v2 mod 64) 6)
    by (rewrite (shiftl_mul _ 6 64) by (reflexivity || lia); lia).
  rewrite (lor_shiftl _ _ 6 64) by (reflexivity || lia).
  rewrite ?(shiftl_mul _ 6 64), ?(shiftl_mul _ 12 4096) by (reflexivity || lia). lia.
Qed.

(** The constants [DecodeRune] derives from the class [x] of the first byte. *)
Ltac class_consts x :=
  let c1 := eval vm_compute in (x >=? as_) in
  change (x >=? as_) with c1;
  let c2 := eval vm_compute in (Z.land x 7 <=? 2) in
  change (Z.land x 7 <=? 2) with c2;
  let c3 := eval vm_compute in (Z.land x 7 <=? 3) in
  change (Z.land x 7 <=? 3) with c3;
  let c4 := eval vm_compute in (Z.land x 7) in
  change (Z.land x 7) with c4;
  let c5 := eval vm_compute in (lo (acceptRanges (Z.shiftr x 4))) in
  change (lo (acceptRanges (Z.shiftr x 4))) with c5;
  let c6 := eval vm_compute in (hi (acceptRanges (Z.shiftr x 4))) in
  change (hi (acceptRanges (Z.shiftr x 4))) with c6;
  let c7 := eval vm_compute in (Z.shiftr (int32 (Z.shiftl x 31)) 31) in
  change (Z.shiftr (int32 (Z.shiftl x 31)) 31) with c7;
  cbv iota.

Ltac split_ifs :=
  repeat match goal with
         | |- context [if ?c then _ else _] =>
           let E := fresh "E" in destruct c eqn:E; try lia
         end.

Ltac split_v0 :=
  repeat match goal with
         | |- context [?v =? ?k] => is_var v; destruct (v =? k) eqn:?; try lia
         | |- context [?v <? ?k] => is_var v; destruct (v <? k) eqn:?; try lia
         | |- context [?k <? ?v] => is_var v; destruct (k <? v) eqn:?; try lia
         end.

Ltac finish_class t :=
  let b1 := fresh "b1" in
  let b2 := fresh "b2" in
  let b3 := fresh "b3" in
  let t3 := fresh "t3" in
  destruct t as [|b1 [|b2 [|b3 t3]]]; rewrite ?len_cons;
  try pose proof (len_nonneg t3);
  change (len (@nil byte)) with 0;
  rewrite ?rune2_arith, ?rune3_arith, ?rune4_arith;
  split_v0; split_ifs; reflexivity.

(** [DecodeRune] computes [decode_arith]. *)
Lemma DecodeRune_arith (p : list byte) : DecodeRune p = decode_arith p.
Proof.
  destruct p as [|p0 t]; [reflexivity|].
  unfold DecodeRune, decode_arith. cbv zeta.
  rewrite first_classify. pose proof (byte_val_range p0) as R0.
  set (v0 := byte_val p0) in *. unfold first_spec.
  rewrite ?rune2_arith, ?rune3_arith, ?rune4_arith.
  unfold accept_lo, accept_hi, continuation, locb, hicb.
  destruct (v0 <? 0x80) eqn:E1.
  { class_consts as_. rewrite Z.ldiff_0_r, Z.land_0_r, Z.lor_0_r. reflexivity. }
  destruct (v0 <? 0xC2) eqn:E2.
  { class_consts xx. cbn [orb]. rewrite Z.ldiff_m1_r, Z.land_m1_r. reflexivity. }
  destruct (v0 <? 0xE0) eqn:E3; [class_consts s1; finish_class t|].
  destruct (v0 =? 0xE0) eqn:E4; [class_consts s2; finish_class t|].
  destruct (v0 <? 0xED) eqn:E5; [class_consts s3; finish_class t|].
  destruct (v0 =? 0xED) eqn:E6; [class_consts s4; finish_class t|].
  destruct (v0 <? 0xF0) eqn:E7; [class_consts s3; finish_class t|].
  destruct (v0 =? 0xF0) eqn:E8; [class_consts s5; finish_class t|].
  destruct (v0 <? 0xF4) eqn:E9; [class_consts s6; finish_class t|].
  destruct (v0 =? 0xF4) eqn:E10; [class_consts s7; finish_class t|].
  class_consts xx. rewrite Z.ldiff_m1_r, Z.land_m1_r.
  split_v0; split_ifs; reflexivity.
Qed.

(** *** [DecodeRune] and the encoding of scalar values *)

Ltac arith := Z.div_mod_to_equations; lia.

Ltac split_ifs_arith :=
  repeat match goal with
         | |- context [if ?a =? ?b then _ else _] =>
           let E := fresh "E" in destruct (a =? b) eqn:E; try (exfalso; arith)
         end;
  repeat match goal with
         | |- context [if ?c then _ else _] =>
           let E := fresh "E" in destruct c eqn:E; try (exfalso; arith)
         end.

(** [DecodeRune] returns every scalar value from its encoding, with the
    encoding's length. *)
Lemma DecodeRune_utf8_encode (c : Z) (rest : list byte) :
  is_scalar c ->
  DecodeRune (utf8_encode c ++ rest) = (c, len (utf8_encode c)).
Proof.
  intros Hc. rewrite DecodeRune_arith. unfold utf8_encode, is_scalar in *.
  destruct (c <? 0x80) eqn:C1; [|destruct (c <? 0x800) eqn:C2; [|destruct (c <? 0x10000) eqn:C3]];
    cbn [app decode_arith]; cbv zeta;
    unfold accept_lo, accept_hi, continuation;
    rewrite !byte_val_of_Z by arith;
    split_ifs_arith; unfold len; cbn [length Z.of_nat Pos.of_succ_nat Pos.succ];
    f_equal; arith.
Qed.

Lemma byte_of_Z_eq (b : byte) (z : Z) : z = byte_val b -> b = byte_of_Z z.
Proof. intros ->. symmetry. apply byte_of_Z_val. Qed.

Lemma cons_byte_of_Z (b : byte) (z : Z) (t t' : list byte) :
  z = byte_val b -> t = t' -> b :: t = byte_of_Z z :: t'.
Proof. intros -> ->. now rewrite byte_of_Z_val. Qed.

(** A rune other than [RuneError] is returned only from the encoding of a
    scalar value at the head of the slice. *)
Lemma DecodeRune_valid (p : list byte) (r n : Z) :
  DecodeRune p = (r, n) -> r <> RuneError ->
  is_scalar r /\ exists rest, p = utf8_encode r ++ rest /\ n = len (utf8_encode r).
Proof.
  rewrite DecodeRune_arith.
  destruct p as [|p0 t]; [intros [= <- <-]; congruence|].
  pose proof (byte_val_range p0) as R0.
  unfold decode_arith. cbv zeta. unfold accept_lo, accept_hi, continuation.
  destruct t as [|b1 [|b2 [|b3 t]]];
    try pose proof (byte_val_range b1) as R1;
    try pose proof (byte_val_range b2) as R2;
    try pose proof (byte_val_range b3) as R3;
    split_ifs_arith; intros [= <- <-] Hne; try congruence;
    (split; [unfold is_scalar; arith|]);
    unfold utf8_encode; split_ifs_arith;
    eexists; (split; [cbn [app]; repeat (apply cons_byte_of_Z; [arith|]); reflexivity
                     | reflexivity]).
Qed.

(** ** The decoder *)

Section Decoder.
Variable K : KeyDecls.
Variable keys : list (list byte).

(** On a buffer that starts with the escape byte, [extract_event] is the
    table scan, with Esc over the whole buffer when the scan's size is 0. *)
Lemma extract_event_escape (rest : list byte) :
  extract_event K keys (x1b :: rest)
  = let '(size, event) := parse_escape_sequence K keys (x1b :: rest) in
    if negb (size =? 0) then (size, event)
    else (len (x1b :: rest), key_event (KeyEsc K)).
Proof. reflexivity. Qed.

Lemma extract_event_unmatched (rest : list byte) :
  (forall k, In k keys -> ~ is_prefix k (x1b :: rest)) ->
  extract_event K keys (x1b :: rest) = (len (x1b :: rest), key_event (KeyEsc K)).
Proof.
  intros H. rewrite extract_event_escape. unfold parse_escape_sequence.
  rewrite parse_escape_from_none by assumption. reflexivity.
Qed.

(** C6: a buffer that starts with 0x1B and has no table entry as a prefix
    is consumed whole, as the single event Esc. *)
Theorem C6_unmatched_escape_swallows_buffer (rest : list byte) :
  (forall k, In k keys -> ~ is_prefix k (x1b :: rest)) ->
  extract_event K keys (x1b :: rest) = (len (x1b :: rest), key_event (KeyEsc K)).
Proof. apply extract_event_unmatched. Qed.

(** What the decoder does with the first entry that is a prefix of an
    escape-led buffer: the entry's length and key, unless the entry is the
    empty string, whose size 0 reads as no match. *)
Lemma extract_event_first_match (rest : list byte) (i : nat) (k : list byte) :
  first_match keys (x1b :: rest) i k ->
  extract_event K keys (x1b :: rest)
  = match k with
    | [] => (len (x1b :: rest), key_event (KeyEsc K))
    | _ :: _ => (len k, key_event (Key K (0xFFFF - Z.of_nat i)))
    end.
Proof.
  intros Hfm. rewrite extract_event_escape.
  rewrite (parse_escape_sequence_first_match K keys _ i k Hfm).
  destruct k as [|b k']; [reflexivity|].
  rewrite len_cons. pose proof (len_nonneg k').
  destruct (len k' + 1 =? 0) eqn:E; [lia | reflexivity].
Qed.

(** C5: on a buffer that starts with 0x1B, the scan goes through the table
    in table order and the first entry whose literal is a prefix of the
    buffer decides the result: consumed is that literal's length and the
    event is the key of its index, also when one entry's literal is a
    prefix of another's, in either placement order.  The literal is an
    escape sequence, so it is not the empty string. *)
Theorem C5_first_match_in_table_order (rest : list byte) (i : nat) (k : list byte) :
  first_match keys (x1b :: rest) i k ->
  k <> [] ->
  extract_event K keys (x1b :: rest)
  = (len k, key_event (Key K (0xFFFF - Z.of_nat i))).
Proof.
  intros Hfm Hk. rewrite (extract_event_first_match rest i k Hfm).
  destruct k; [contradiction | reflexivity].
Qed.

Lemma extract_event_size_bounds (b : list byte) :
  0 <= fst (extract_event K keys b) <= len b.
Proof.
  destruct b as [|b0 rest]; [unfold len; cbn; lia|].
  pose proof (len_nonneg rest) as Hrest.
  unfold extract_event.
  destruct (byte_val b0 =? 27).
  - unfold parse_escape_sequence.
    destruct (parse_escape_from_cases K keys (b0 :: rest) 0)
      as [H | (j & k & _ & Hp & H)]; rewrite H.
    + cbn [negb Z.eqb fst]. rewrite len_cons. lia.
    + apply is_prefix_len in Hp. pose proof (len_nonneg k).
      destruct (negb (len k =? 0)); cbn [fst]; lia.
  - destruct (_ || _).
    + cbn [fst]. rewrite len_cons. lia.
    + pose proof (DecodeRune_size (b0 :: rest)) as Hs.
      destruct (DecodeRune (b0 :: rest)) as [r n]. cbn [snd] in Hs.
      destruct (negb (r =? RuneError)); cbn [fst]; lia.
Qed.

(** C9: the decoder never reports more bytes consumed than the buffer
    holds, whatever the buffer and the table. *)
Theorem C9_consumed_le_len (b : list byte) :
  fst (extract_event K keys b) <= len b.
Proof. apply extract_event_size_bounds. Qed.

(** C10: on a buffer that starts with 0x1B the decoder always consumes at
    least one byte: the result is either a table entry's length and key,
    or the whole buffer as Esc; it never reports 0 to wait for more. *)
Theorem C10_escape_always_consumes (rest : list byte) :
  1 <= fst (extract_event K keys (x1b :: rest)) /\
  (extract_event K keys (x1b :: rest) = (len (x1b :: rest), key_event (KeyEsc K)) \/
   exists (i : nat) (k : list byte),
     nth_error keys i = Some k /\ is_prefix k (x1b :: rest) /\ k <> [] /\
     extract_event K keys (x1b :: rest)
     = (len k, key_event (Key K (0xFFFF - Z.of_nat i)))).
Proof.
  rewrite extract_event_escape. unfold parse_escape_sequence.
  assert (Hlen : 1 <= len (x1b :: rest))
    by (rewrite len_cons; pose proof (len_nonneg rest); lia).
  destruct (parse_escape_from_cases K keys (x1b :: rest) 0)
    as [H | (j & k & Hn & Hp & H)]; rewrite H.
  - cbn [negb Z.eqb fst]. split; [assumption | now left].
  - rewrite Z.add_0_l. pose proof (len_nonneg k).
    destruct (len k =? 0) eqn:E; cbn [negb fst].
    + split; [assumption | now left].
    + apply Z.eqb_neq in E. split; [lia|]. right. exists j, k.
      repeat split; try assumption. intros ->. now apply E.
Qed.

(** C1, amended: a buffer that starts with 0x1B, is a proper prefix of a
    table entry and has no entry as a prefix is not kept waiting: the
    decoder consumes it whole as Esc, and the producer that receives it as
    a chunk on an empty buffer goes on to send Esc. *)
Theorem C1_partial_escape_decodes_as_Esc (rest : list byte) :
  (exists k, In k keys /\ proper_prefix (x1b :: rest) k) ->
  (forall k, In k keys -> ~ is_prefix k (x1b :: rest)) ->
  extract_event K keys (x1b :: rest) = (len (x1b :: rest), key_event (KeyEsc K)) /\
  producer_step K keys {| p_pc := P_select; inbuf := [] |}
                (PE_chunk {| data := x1b :: rest; ierr := None |})
  = Some {| p_pc := P_produce (key_event (KeyEsc K)) false; inbuf := [] |}.
Proof.
  intros _ Hno. pose proof (extract_event_unmatched rest Hno) as He.
  split; [assumption|].
  unfold producer_step. cbn [p_pc inbuf ierr data app]. unfold extract_and_produce.
  rewrite He. assert (Hlen : 1 <= len (x1b :: rest))
    by (rewrite len_cons; pose proof (len_nonneg rest); lia).
  destruct (len (x1b :: rest) =? 0) eqn:E; [lia|]. cbn [negb].
  destruct (0 <=? len (x1b :: rest)) eqn:E1; [|lia].
  rewrite Z.leb_refl. cbn [andb]. do 2 f_equal.
  unfold len. rewrite Nat2Z.id. apply skipn_all.
Qed.
End Decoder.

(** ** The scenarios of the decoder *)

(** Prefix facts between given byte strings, by running [HasPrefix]. *)
Ltac prefix_by_eval :=
  match goal with
  | |- is_prefix _ _ => apply HasPrefix_spec; reflexivity
  | |- ~ is_prefix _ _ => apply HasPrefix_false; reflexivity
  end.

Ltac each_key :=
  let k := fresh "k" in
  let H := fresh "H" in
  intros k H; simpl in H;
  repeat match type of H with
         | _ \/ _ => destruct H as [H | H]
         end;
  try contradiction; subst k; prefix_by_eval.

(** The table [keys_F1_F2] on the bytes 0x1B 'O' 'P' 'a'. *)
Example decode_F1 :
  extract_event K16 keys_F1_F2 [x1b; x4f; x50; x61] = (3, key_event 0xFFFF).
Proof. reflexivity. Qed.

Example decode_a : extract_event K16 keys_F1_F2 [x61] = (1, rune_event 97).
Proof. reflexivity. Qed.

(** Two entries, one a prefix of the other, in both orders: the one placed
    first wins on a buffer equal to the longer. *)
Example short_entry_first :
  extract_event K16 [esc_O; esc_OP] esc_OP = (2, key_event 0xFFFF).
Proof. reflexivity. Qed.

Example long_entry_first :
  extract_event K16 [esc_OP; esc_O] esc_OP = (3, key_event 0xFFFF).
Proof. reflexivity. Qed.

Lemma C6_witness :
  (forall k, In k keys_F1_F2 -> ~ is_prefix k (x1b :: [x5a])) /\
  extract_event K16 keys_F1_F2 (x1b :: [x5a]) = (2, key_event 27).
Proof.
  split.
  - each_key.
  - apply (C6_unmatched_escape_swallows_buffer K16 keys_F1_F2 [x5a]). each_key.
Defined.

Lemma C5_witness :
  first_match [esc_OQ; esc_O; esc_OP] (x1b :: [x4f; x50; x61]) 1 esc_O /\
  esc_O <> [] /\
  extract_event K16 [esc_OQ; esc_O; esc_OP] (x1b :: [x4f; x50; x61])
  = (2, key_event 0xFFFE).
Proof.
  assert (H : first_match [esc_OQ; esc_O; esc_OP] (x1b :: [x4f; x50; x61]) 1 esc_O).
  { split; [reflexivity|]. split; [prefix_by_eval|].
    intros j k' Hj Hn. destruct j as [|j]; [|lia].
    injection Hn as <-. prefix_by_eval. }
  assert (Hne : esc_O <> []) by discriminate.
  split; [exact H|]. split; [exact Hne|].
  exact (C5_first_match_in_table_order K16 [esc_OQ; esc_O; esc_OP] [x4f; x50; x61] 1 esc_O
           H Hne).
Defined.

(** A table that held the empty string: the empty literal is a prefix of
    every buffer, the scan stops on it with size 0, and the decoder takes
    that for no match. *)
Example empty_literal_reads_as_no_match :
  first_match [[]; esc_OP] esc_OP 0 [] /\
  extract_event K16 [[]; esc_OP] esc_OP = (3, key_event 27).
Proof.
  split; [|reflexivity].
  split; [reflexivity|]. split; [apply is_prefix_nil|]. intros j k' Hj. lia.
Qed.

(** C1 as stated fails: "\x1bO" is a proper prefix of the entry "\x1bOP"
    and no entry is a prefix of it, yet the decoder does not return 0. *)
Lemma C1_counterexample :
  (exists k, In k [esc_OP] /\ proper_prefix esc_O k) /\
  (forall k, In k [esc_OP] -> ~ is_prefix k esc_O) /\
  extract_event K16 [esc_OP] esc_O <> (0, keyEvent_zero) /\
  extract_event K16 [esc_OP] esc_O = (2, key_event 27).
Proof.
  split; [|split; [|split]].
  - exists esc_OP. split; [now left|]. exists [x50]. split; [discriminate | reflexivity].
  - each_key.
  - discriminate.
  - reflexivity.
Qed.

Lemma C1_witness :
  (exists k, In k [esc_OP] /\ proper_prefix (x1b :: [x4f]) k) /\
  (forall k, In k [esc_OP] -> ~ is_prefix k (x1b :: [x4f])) /\
  extract_event K16 [esc_OP] (x1b :: [x4f]) = (2, key_event 27) /\
  producer_step K16 [esc_OP] {| p_pc := P_select; inbuf := [] |}
                (PE_chunk {| data := x1b :: [x4f]; ierr := None |})
  = Some {| p_pc := P_produce (key_event 27) false; inbuf := [] |}.
Proof.
  assert (H1 : exists k, In k [esc_OP] /\ proper_prefix (x1b :: [x4f]) k).
  { exists esc_OP. split; [now left|]. exists [x50]. split; [discriminate | reflexivity]. }
  assert (H2 : forall k, In k [esc_OP] -> ~ is_prefix k (x1b :: [x4f])) by each_key.
  split; [exact H1|]. split; [exact H2|].
  exact (C1_partial_escape_decodes_as_Esc K16 [esc_OP] [x4f] H1 H2).
Defined.

(** ** Runes *)

Section Runes.
Variable K : KeyDecls.
Variable keys : list (list byte).

(** On such a buffer [extract_event] is [utf8.DecodeRune], with every rune
    equal to [utf8.RuneError] taken for a failure. *)
Lemma extract_event_rune (b0 : byte) (tl : list byte) :
  rune_lead K b0 ->
  extract_event K keys (b0 :: tl)
  = let '(r, n) := DecodeRune (b0 :: tl) in
    if negb (r =? RuneError) then (n, rune_event r) else (0, keyEvent_zero).
Proof.
  intros (H1 & H2 & H3). unfold extract_event.
  destruct (byte_val b0 =? 27) eqn:E1; [lia|].
  destruct (Key K (byte_val b0) <=? KeySpace K) eqn:E2; [lia|].
  destruct (Key K (byte_val b0) =? KeyBackspace2 K) eqn:E3; [lia|].
  reflexivity.
Qed.

(** The complete, valid encoding of a scalar value other than U+FFFD at the
    head of the buffer is consumed, and the event carries the scalar. *)
Lemma extract_event_scalar (c : Z) (b0 : byte) (tl rest : list byte) :
  is_scalar c -> c <> 0xFFFD -> utf8_encode c = b0 :: tl -> rune_lead K b0 ->
  extract_event K keys (utf8_encode c ++ rest) = (len (utf8_encode c), rune_event c).
Proof.
  intros Hc Hne Henc Hlead.
  pose proof (DecodeRune_utf8_encode c rest Hc) as Hd.
  rewrite Henc in *. cbn [app] in *. rewrite (extract_event_rune _ _ Hlead), Hd.
  destruct (c =? RuneError) eqn:E; [unfold RuneError in E; lia | reflexivity].
Qed.

(** A head that is not the encoding of any scalar value, because it is
    incomplete or invalid, gives 0 and no event. *)
Lemma extract_event_not_utf8 (b0 : byte) (tl : list byte) :
  rune_lead K b0 ->
  (forall c, is_scalar c -> ~ is_prefix (utf8_encode c) (b0 :: tl)) ->
  extract_event K keys (b0 :: tl) = (0, keyEvent_zero).
Proof.
  intros Hlead Hno. rewrite (extract_event_rune _ _ Hlead).
  destruct (DecodeRune (b0 :: tl)) as [r n] eqn:Hd.
  destruct (r =? RuneError) eqn:E; [reflexivity|].
  apply Z.eqb_neq in E.
  destruct (DecodeRune_valid _ _ _ Hd E) as (Hs & rest & Hp & _).
  exfalso. apply (Hno r Hs). now exists rest.
Qed.

(** C4: the bytes EF BF BD are the complete, valid encoding of the scalar
    U+FFFD; [utf8.DecodeRune] returns it with width 3, and [extract_event],
    which takes every rune equal to [utf8.RuneError] for a failed decoding,
    returns 0 and the zero event, whatever follows in the buffer. *)
Theorem C4_replacement_character_not_decoded (rest : list byte) :
  rune_lead K xef ->
  is_scalar 0xFFFD /\
  utf8_encode 0xFFFD = [xef; xbf; xbd] /\
  DecodeRune ([xef; xbf; xbd] ++ rest) = (0xFFFD, 3) /\
  extract_event K keys ([xef; xbf; xbd] ++ rest) = (0, keyEvent_zero).
Proof.
  intros Hlead.
  assert (Hd : DecodeRune ([xef; xbf; xbd] ++ rest) = (0xFFFD, 3)).
  { change [xef; xbf; xbd] with (utf8_encode 0xFFFD).
    rewrite DecodeRune_utf8_encode; [reflexivity | right; lia]. }
  split; [right; lia|]. split; [reflexivity|]. split; [exact Hd|].
  cbn [app] in *. rewrite (extract_event_rune _ _ Hlead), Hd. reflexivity.
Qed.
End Runes.

Example encode_euro : utf8_encode 0x20AC = [xe2; x82; xac].
Proof. reflexivity. Qed.

Example encode_emoji : utf8_encode 0x1F600 = [xf0; x9f; x98; x80].
Proof. reflexivity. Qed.

Example decode_euro :
  extract_event K16 keys_F1_F2 [xe2; x82; xac; x61] = (3, rune_event 0x20AC).
Proof. reflexivity. Qed.

Example decode_euro_incomplete :
  extract_event K16 keys_F1_F2 [xe2; x82] = (0, keyEvent_zero).
Proof. reflexivity. Qed.

Lemma rune_lead_xef : rune_lead K16 xef.
Proof. unfold rune_lead. cbn. lia. Qed.

Lemma C4_witness :
  rune_lead K16 xef /\
  DecodeRune ([xef; xbf; xbd] ++ []) = (0xFFFD, 3) /\
  extract_event K16 keys_F1_F2 ([xef; xbf; xbd] ++ []) = (0, keyEvent_zero).
Proof.
  split; [exact rune_lead_xef|].
  exact (proj2 (proj2 (C4_replacement_character_not_decoded K16 keys_F1_F2 []
                         rune_lead_xef))).
Defined.

(** ** The producer: one decoding for each chunk *)

(** The size [extract_event] returns is within the buffer, so the producer's
    slicing never panics. *)
Lemma extract_and_produce_no_panic (K : KeyDecls) (keys : list (list byte)) (buf : list byte) :
  p_pc (extract_and_produce K keys buf) <> P_panic.
Proof.
  unfold extract_and_produce.
  pose proof (extract_event_size_bounds K keys buf) as Hb.
  destruct (extract_event K keys buf) as [size event]. cbn [fst] in Hb.
  destruct (negb (size =? 0)); [|discriminate].
  destruct (0 <=? size) eqn:E1; [|lia].
  destruct (size <=? len buf) eqn:E2; [|lia].
  discriminate.
Qed.

(** C2: on the chunk 0x1B 'O' 'P' 'a' the producer appends the bytes and
    calls the decoder once: it sends F1, keeps 'a' in the buffer and goes
    back to its select, although the decoder would return the scalar 'a' on
    what is left; there is no second decoding before the next chunk. *)
Theorem C2_one_event_per_chunk :
  producer_step K16 keys_F1_F2 {| p_pc := P_select; inbuf := [] |} (PE_chunk chunk_OPa)
  = Some {| p_pc := P_produce (key_event 0xFFFF) false; inbuf := [x61] |} /\
  producer_step K16 keys_F1_F2
                {| p_pc := P_produce (key_event 0xFFFF) false; inbuf := [x61] |} PE_sent
  = Some {| p_pc := P_select; inbuf := [x61] |} /\
  run K16 keys_F1_F2 holding_OPa [S_chunk; S_event] = Some after_F1 /\
  extract_event K16 keys_F1_F2 [x61] = (1, rune_event 97).
Proof. repeat split; reflexivity. Qed.

(** A producer started on an empty buffer decodes nothing and waits. *)
Example producer_starts_waiting :
  system_step K16 keys_F1_F2 (system_started []) S_run
  = Some {| reader := R_select; prod := {| p_pc := P_select; inbuf := [] |};
            sigio_pending := false; closer := C_idle; delivered := [] |}.
Proof. reflexivity. Qed.

(** The entry "\x1bOP" read in one chunk gives F1; read one byte at a time
    it gives Esc, 'O' and 'P'. *)
Example escape_in_one_chunk :
  option_map delivered
    (run K16 keys_F1_F2 reading [S_read (ReadOk esc_OP); S_chunk; S_event])
  = Some [key_event 0xFFFF].
Proof. reflexivity. Qed.

Example escape_byte_by_byte :
  option_map delivered
    (run K16 keys_F1_F2 reading
       [S_read (ReadOk [x1b]); S_chunk; S_event;
        S_read (ReadOk [x4f]); S_chunk; S_event;
        S_read (ReadOk [x50]); S_chunk; S_event])
  = Some [key_event 27; rune_event 79; rune_event 80].
Proof. reflexivity. Qed.

(** Induction over a schedule. *)
Lemma run_invariant (K : KeyDecls) (keys : list (list byte))
    (I : system -> Prop) (allowed : sys_event -> Prop) :
  (forall s e s', I s -> allowed e -> system_step K keys s e = Some s' -> I s') ->
  forall es s s', I s -> Forall allowed es -> run K keys s es = Some s' -> I s'.
Proof.
  intros Hstep es. induction es as [|e es IH]; intros s s' Hs Hall Hrun.
  - cbn in Hrun. now injection Hrun as <-.
  - cbn [run] in Hrun. inversion Hall as [|? ? He Hes]; subst.
    destruct (system_step K keys s e) as [s1|] eqn:E; [|discriminate].
    apply (IH s1 s'); [apply (Hstep s e s1) | |]; assumption.
Qed.

(** After F1, whatever happens except the arrival of another chunk, the
    consumer has received F1 alone and 'a' is still in the buffer. *)
Lemma no_second_event_without_chunk (es : list sys_event) (s' : system) :
  Forall (fun e => e <> S_chunk) es ->
  run K16 keys_F1_F2 after_F1 es = Some s' ->
  delivered s' = [key_event 0xFFFF] /\ inbuf (prod s') = [x61].
Proof.
  intros Hall Hrun.
  pose (I := fun s : system =>
    delivered s = [key_event 0xFFFF] /\ inbuf (prod s) = [x61] /\
    (p_pc (prod s) = P_select \/ p_pc (prod s) = P_stopped)).
  assert (HI : I s').
  { apply (run_invariant K16 keys_F1_F2 I (fun e => e <> S_chunk)) with (es := es) (s := after_F1);
      [| unfold I; cbn; auto | assumption | assumption].
    clear. intros [r [pc b] sp c d] e s' (Hd & Hb & Hpc) Hne Hstep.
    cbn in Hd, Hb, Hpc. subst d b. unfold I.
    destruct Hpc as [-> | ->]; destruct e; try congruence; cbn in Hstep;
      repeat match type of Hstep with
             | context [match ?x with _ => _ end] => destruct x eqn:?; try discriminate
             end;
      try discriminate; injection Hstep as <-; cbn; auto;
      repeat match goal with
             | H : Some _ = Some _ |- _ => injection H as <-
             end; cbn; auto. }
  destruct HI as (? & ? & _). auto.
Qed.

(** ** The reader after a read error *)

Lemma error_eqb_eq (a b : error) : error_eqb a b = true <-> a = b.
Proof.
  revert b. induction a as [x | m a IH]; intros [y | n b]; cbn [error_eqb];
    split; try congruence.
  - intros H. apply Z.eqb_eq in H. congruence.
  - intros H. injection H as ->. apply Z.eqb_refl.
  - intros H. apply andb_true_iff in H as [Hm Hab].
    apply String.eqb_eq in Hm. apply IH in Hab. congruence.
  - intros H. injection H as -> ->. apply andb_true_iff. split.
    + apply String.eqb_refl.
    + now apply IH.
Qed.

Lemma error_eqb_neq (a b : error) : a <> b -> error_eqb a b = false.
Proof.
  intros H. destruct (error_eqb a b) eqn:E; [|reflexivity].
  apply error_eqb_eq in E. contradiction.
Qed.

(** The reader returns on one event only: a value received from [quit]. *)
Lemma reader_stops_only_on_quit (r : reader_pc) (e : reader_event) :
  reader_step r e = Some R_stopped -> e = RE_quit.
Proof.
  destruct r, e; cbn; try discriminate; try reflexivity.
  destruct r as [bytes | e]; [discriminate|].
  destruct (_ || _); discriminate.
Qed.

Lemma reader_stopped_stays (e : reader_event) : reader_step R_stopped e = None.
Proof. now destruct e. Qed.

(** C7, amended: after a read error other than would-block the reader
    packages the error as a chunk without data and attempts to deliver it;
    when the value of [quit] arrives first it stops; when the chunk is
    delivered it goes on draining, that is, it reads the device again. *)
Theorem C7_reader_continues_after_delivered_error (e : error) :
  e <> EAGAIN -> e <> EWOULDBLOCK ->
  reader_step R_read (RE_read (ReadErr e))
  = Some (R_deliver {| data := []; ierr := Some e |}) /\
  reader_step (R_deliver {| data := []; ierr := Some e |}) RE_quit = Some R_stopped /\
  reader_step (R_deliver {| data := []; ierr := Some e |}) RE_sent = Some R_read.
Proof.
  intros H1 H2. cbn [reader_step].
  rewrite (error_eqb_neq _ _ H1), (error_eqb_neq _ _ H2). auto.
Qed.

Lemma C7_witness :
  Errno 5 <> EAGAIN /\ Errno 5 <> EWOULDBLOCK /\
  reader_step R_read (RE_read (ReadErr (Errno 5)))
  = Some (R_deliver {| data := []; ierr := Some (Errno 5) |}) /\
  reader_step (R_deliver {| data := []; ierr := Some (Errno 5) |}) RE_quit = Some R_stopped /\
  reader_step (R_deliver {| data := []; ierr := Some (Errno 5) |}) RE_sent = Some R_read.
Proof.
  assert (H1 : Errno 5 <> EAGAIN) by discriminate.
  assert (H2 : Errno 5 <> EWOULDBLOCK) by discriminate.
  split; [exact H1|]. split; [exact H2|].
  exact (C7_reader_continues_after_delivered_error (Errno 5) H1 H2).
Defined.

(** C7 as stated fails: the read fails with EIO (errno 5), the producer
    receives the chunk, and the reader is not stopped but back in its
    draining loop, where the next [syscall.Read] is made and answered. *)
Lemma C7_counterexample :
  let waiting : system :=
    {| reader := R_read; prod := {| p_pc := P_select; inbuf := [] |};
       sigio_pending := false; closer := C_idle; delivered := [] |} in
  Errno 5 <> EAGAIN /\ Errno 5 <> EWOULDBLOCK /\
  (exists s, run K16 keys_F1_F2 waiting [S_read (ReadErr (Errno 5)); S_chunk] = Some s /\
             reader s = R_read /\ reader s <> R_stopped /\
             system_step K16 keys_F1_F2 s (S_read (ReadOk [x61])) <> None).
Proof.
  cbv zeta. split; [discriminate|]. split; [discriminate|].
  eexists. split; [reflexivity|]. cbn. repeat split; discriminate.
Qed.

(** ** One value on [quit] for two tasks *)

Section Quit.
Variable K : KeyDecls.
Variable keys : list (list byte).

(** Once the value is received, no step makes both tasks stopped. *)
Lemma quit_spent_step (s : system) (e : sys_event) (s' : system) :
  quit_spent s -> system_step K keys s e = Some s' -> quit_spent s'.
Proof.
  destruct s as [r [pc b] sp c d]. unfold quit_spent.
  cbn [closer reader prod p_pc]. intros (-> & Hr).
  destruct e;
    cbn [system_step closer reader prod sigio_pending delivered
         set_reader set_prod set_closer p_pc inbuf];
    intros H; try discriminate.
  - injection H as <-. cbn. auto.
  - destruct sp; [|discriminate].
    destruct (reader_step r RE_sigio) as [r'|] eqn:E; [|discriminate].
    injection H as <-. cbn. split; [reflexivity|]. left. intros ->.
    apply reader_stops_only_on_quit in E. discriminate.
  - destruct (reader_step r (RE_read r0)) as [r'|] eqn:E; [|discriminate].
    injection H as <-. cbn. split; [reflexivity|]. left. intros ->.
    apply reader_stops_only_on_quit in E. discriminate.
  - destruct r; try discriminate. cbn [reader_step] in H.
    destruct (producer_step K keys _ _); [|discriminate].
    injection H as <-. cbn. split; [reflexivity|]. left. discriminate.
  - destruct (producer_step K keys _ PE_run) as [p'|] eqn:E; [|discriminate].
    injection H as <-. cbn. split; [reflexivity|].
    destruct Hr as [Hr | (Hr & [-> | (ev & ->)])]; [now left | discriminate | discriminate].
  - destruct pc; try discriminate. cbn [producer_step p_pc inbuf] in H.
    injection H as <-. cbn. split; [reflexivity|].
    destruct Hr as [Hr | (Hr & [Hp | (ev & Hp)])]; [now left | discriminate |].
    injection Hp as -> ->. right. split; [assumption | now left].
Qed.

(** C3: with both tasks blocked in their selects and [releaseConsole]
    blocked in [quit <- 1], the one value sent is received by one task
    only, the reader or the producer; whatever happens afterwards, the two
    tasks are never both stopped. *)
Theorem C3_one_quit_value_never_stops_both
    (s : system) (q : sys_event) (es : list sys_event) (s' : system) :
  closer s = C_sending ->
  reader_blocked (reader s) ->
  producer_blocked (p_pc (prod s)) ->
  q = S_quit_reader \/ q = S_quit_producer ->
  run K keys s (q :: es) = Some s' ->
  ~ (reader s' = R_stopped /\ p_pc (prod s') = P_stopped).
Proof.
  intros Hc Hr Hp Hq Hrun. cbn [run] in Hrun.
  destruct (system_step K keys s q) as [s1|] eqn:Hstep; [|discriminate].
  assert (H1 : quit_spent s1).
  { destruct s as [r [pc b] sp c d]. cbn [closer reader prod p_pc] in Hc, Hr, Hp. subst c.
    destruct Hq as [-> | ->];
      cbn [system_step closer reader prod sigio_pending delivered
           set_reader set_prod set_closer p_pc inbuf] in Hstep.
    - destruct (reader_step r RE_quit) as [r'|] eqn:E; [|discriminate].
      injection Hstep as <-. split; [reflexivity|]. cbn. right. split; [|assumption].
      destruct Hr as [-> | (c & ->)]; cbn in E; congruence.
    - destruct (producer_step K keys _ PE_quit) as [p'|]; [|discriminate].
      injection Hstep as <-. split; [reflexivity|]. cbn. left.
      destruct Hr as [-> | (c & ->)]; discriminate. }
  assert (H2 : quit_spent s').
  { apply (run_invariant K keys quit_spent (fun _ => True)) with (es := es) (s := s1).
    - intros x e y Hx _. now apply quit_spent_step.
    - exact H1.
    - apply Forall_forall. auto.
    - exact Hrun. }
  destruct H2 as (_ & [Hn | (_ & [Hb | (ev & Hb)])]); intros (Hrs & Hps); congruence.
Qed.
End Quit.

Lemma C3_witness :
  closer both_blocked = C_sending /\
  reader_blocked (reader both_blocked) /\
  producer_blocked (p_pc (prod both_blocked)) /\
  run K16 keys_F1_F2 both_blocked (S_quit_reader :: [S_signal])
  = Some {| reader := R_stopped; prod := {| p_pc := P_select; inbuf := [] |};
            sigio_pending := true; closer := C_done; delivered := [] |} /\
  ~ (reader {| reader := R_stopped; prod := {| p_pc := P_select; inbuf := [] |};
               sigio_pending := true; closer := C_done; delivered := [] |} = R_stopped /\
     p_pc (prod {| reader := R_stopped; prod := {| p_pc := P_select; inbuf := [] |};
                   sigio_pending := true; closer := C_done; delivered := [] |}) = P_stopped).
Proof.
  assert (Hr : reader_blocked (reader both_blocked)) by now left.
  assert (Hp : producer_blocked (p_pc (prod both_blocked))) by now left.
  split; [reflexivity|]. split; [exact Hr|]. split; [exact Hp|]. split; [reflexivity|].
  apply (C3_one_quit_value_never_stops_both K16 keys_F1_F2 both_blocked
           S_quit_reader [S_signal]);
    [reflexivity | exact Hr | exact Hp | now left | reflexivity].
Defined.

(** The two ways the value can go from [both_blocked]: the task that
    receives it returns, the other stays where it was. *)
Example quit_to_reader :
  system_step K16 keys_F1_F2 both_blocked S_quit_reader
  = Some {| reader := R_stopped; prod := {| p_pc := P_select; inbuf := [] |};
            sigio_pending := false; closer := C_done; delivered := [] |}.
Proof. reflexivity. Qed.

Example quit_to_producer :
  system_step K16 keys_F1_F2 both_blocked S_quit_producer
  = Some {| reader := R_select; prod := {| p_pc := P_stopped; inbuf := [] |};
            sigio_pending := false; closer := C_done; delivered := [] |}.
Proof. reflexivity. Qed.

(** A value of [quit] received inside [produceEvent] does not stop the
    producer either: [produceEvent] returns and the loop goes on. *)
Example quit_in_produceEvent :
  producer_step K16 keys_F1_F2
    {| p_pc := P_produce (key_event 0xFFFF) false; inbuf := [x61] |} PE_quit
  = Some {| p_pc := P_select; inbuf := [x61] |}.
Proof. reflexivity. Qed.

(** ** [initConsole] on a failed step *)

(** C8 as stated fails: when the second open fails, [initConsole] returns
    the error and [out], opened by the first step, is still open. *)
Lemma C8_counterexample :
  snd (initConsole second_open_fails console_zero) = Some (Errno 2) /\
  out_open (fst (initConsole second_open_fails console_zero)) = true.
Proof. split; reflexivity. Qed.

(** C8, amended: when a setup step fails, [initConsole] returns the error
    at once and starts neither task; it closes nothing and disarms nothing:
    each descriptor opened before the failing step is still open, and the
    SIGIO notification, once registered, stays registered. *)
Theorem C8_failed_init_returns_without_closing
    (env : setup_calls) (c : console) (e : error) :
  initConsole env console_zero = (c, Some e) ->
  tasks_started c = false /\
  out_open c = is_nil (OpenFile_err env) /\
  in_open c = is_nil (OpenFile_err env) && is_nil (Open_err env) /\
  sigio_notified c
  = is_nil (OpenFile_err env) && is_nil (Open_err env) && is_nil (setup_term_err env).
Proof.
  unfold initConsole.
  destruct (OpenFile_err env) as [e1|]; [intros [= <- _]; cbn; auto|].
  destruct (Open_err env) as [e2|]; [intros [= <- _]; cbn; auto|].
  destruct (setup_term_err env) as [e3|]; [intros [= <- _]; cbn; auto|].
  destruct (SETFL_err env) as [e4|]; [intros [= <- _]; cbn; auto|].
  destruct (negb (darwin env) && negb (is_nil (SETOWN_err env)));
    [intros [= <- _]; cbn; auto|].
  destruct (GETATTR_err env) as [e6|];
    [intros [= <- _]; destruct (is_nil (SETOWN_err env)); cbn; auto|].
  destruct (SETATTR_err env) as [e7|];
    [intros [= <- _]; destruct (is_nil (SETOWN_err env)); cbn; auto|].
  discriminate.
Qed.

Lemma C8_witness :
  initConsole second_open_fails console_zero
  = ({| out_open := true; in_open := false; sigio_notified := false;
        in_async := false; in_owned := false; orig_saved := false;
        raw := false; tasks_started := false |}, Some (Errno 2)) /\
  tasks_started {| out_open := true; in_open := false; sigio_notified := false;
                   in_async := false; in_owned := false; orig_saved := false;
                   raw := false; tasks_started := false |} = false.
Proof.
  split; [reflexivity|].
  apply (C8_failed_init_returns_without_closing second_open_fails _ (Errno 2)).
  reflexivity.
Defined.

(** When every step succeeds, everything is armed and the tasks run. *)
Lemma initConsole_success (env : setup_calls) (c : console) :
  initConsole env console_zero = (c, None) ->
  out_open c = true /\ in_open c = true /\ sigio_notified c = true /\
  in_async c = true /\ orig_saved c = true /\ raw c = true /\ tasks_started c = true.
Proof.
  unfold initConsole.
  destruct (OpenFile_err env); [discriminate|].
  destruct (Open_err env); [discriminate|].
  destruct (setup_term_err env); [discriminate|].
  destruct (SETFL_err env); [discriminate|].
  destruct (negb (darwin env) && negb (is_nil (SETOWN_err env))) eqn:E.
  - destruct (SETOWN_err env); [discriminate|].
    cbn in E. rewrite andb_false_r in E. discriminate.
  - destruct (GETATTR_err env); [discriminate|].
    destruct (SETATTR_err env); [discriminate|].
    intros [= <-]. destruct (is_nil (SETOWN_err env)); cbn; auto 10.
Qed.


(* ================================================================== *)
(** * Part III: further properties of the code                         *)
(* ================================================================== *)

(** ** The decoder on runes *)

Lemma len_utf8_encode (c : Z) : 1 <= len (utf8_encode c) <= 4.
Proof.
  unfold utf8_encode.
  destruct (c <? 0x80); [|destruct (c <? 0x800); [|destruct (c <? 0x10000)]];
    unfold len; cbn [length]; lia.
Qed.

Lemma len_app {A : Type} (a b : list A) : len (a ++ b) = len a + len b.
Proof. unfold len. rewrite length_app. lia. Qed.

(** No encoding of a scalar value is a proper prefix of another's. *)
Lemma utf8_encode_prefix_free (c r : Z) (x y : list byte) :
  is_scalar c -> is_scalar r -> utf8_encode c ++ x = utf8_encode r ++ y ->
  c = r /\ x = y.
Proof.
  intros Hc Hr H.
  pose proof (DecodeRune_utf8_encode c x Hc) as H1.
  pose proof (DecodeRune_utf8_encode r y Hr) as H2.
  rewrite H, H2 in H1. injection H1 as -> _.
  split; [reflexivity|]. now apply app_inv_head in H.
Qed.

(** A proper prefix of the encoding of a scalar value decodes to nothing. *)
Lemma extract_event_partial (K : KeyDecls) (keys : list (list byte))
    (c : Z) (b0 : byte) (tl post : list byte) :
  is_scalar c -> utf8_encode c = (b0 :: tl) ++ post -> post <> [] -> rune_lead K b0 ->
  extract_event K keys (b0 :: tl) = (0, keyEvent_zero).
Proof.
  intros Hc Henc Hpost Hlead. rewrite (extract_event_rune K keys _ _ Hlead).
  destruct (DecodeRune (b0 :: tl)) as [r n] eqn:Hd.
  destruct (r =? RuneError) eqn:E; [reflexivity|].
  apply Z.eqb_neq in E.
  destruct (DecodeRune_valid _ _ _ Hd E) as (Hr & rest & Hp & _).
  exfalso. apply Hpost.
  assert (H : utf8_encode c ++ [] = utf8_encode r ++ (rest ++ post)).
  { rewrite app_nil_r, Henc, Hp, app_assoc. reflexivity. }
  destruct (utf8_encode_prefix_free c r [] (rest ++ post) Hc Hr H) as [_ Hnil].
  symmetry in Hnil. apply app_eq_nil in Hnil. exact (proj2 Hnil).
Qed.

Section RuneProperties.
Variable K : KeyDecls.
Variable keys : list (list byte).

(** X1: on a buffer whose first byte is handed to the rune decoder,
    [extract_event] consumes something exactly when the buffer starts with
    the complete UTF-8 encoding of a scalar value other than U+FFFD; it
    then consumes that encoding and returns the scalar as a rune event. *)
Theorem rune_decoded_iff_encoding (b0 : byte) (tl : list byte) (n : Z) (ev : keyEvent) :
  rune_lead K b0 ->
  (extract_event K keys (b0 :: tl) = (n, ev) /\ n <> 0) <->
  (exists c, is_scalar c /\ c <> 0xFFFD /\ is_prefix (utf8_encode c) (b0 :: tl) /\
             n = len (utf8_encode c) /\ ev = rune_event c).
Proof.
  intros Hlead. split.
  - intros [He Hn]. rewrite (extract_event_rune K keys _ _ Hlead) in He.
    destruct (DecodeRune (b0 :: tl)) as [r m] eqn:Hd.
    destruct (r =? RuneError) eqn:E; cbn [negb] in He;
      injection He as <- <-; [congruence|].
    apply Z.eqb_neq in E.
    destruct (DecodeRune_valid _ _ _ Hd E) as (Hr & rest & Hp & Hm).
    exists r. repeat split; try assumption. now exists rest.
  - intros (c & Hc & Hne & [rest Hp] & -> & ->).
    pose proof (len_utf8_encode c) as Hl. split; [|lia].
    destruct (utf8_encode c) as [|e0 etl] eqn:Henc; [unfold len in Hl; cbn [length] in Hl; lia|].
    cbn [app] in Hp. injection Hp as <- ->.
    rewrite <- Henc.
    replace (b0 :: etl ++ rest) with (utf8_encode c ++ rest) by now rewrite Henc.
    apply (extract_event_scalar K keys c b0 etl rest Hc Hne Henc Hlead).
Qed.

(** X2: when the first byte is not the escape byte, a buffer the decoder
    consumes from gives the same result with any bytes appended: what
    arrives after a complete key or character does not change it. *)
Theorem decoded_head_stable (b0 : byte) (tl more : list byte) :
  byte_val b0 <> 27 ->
  fst (extract_event K keys (b0 :: tl)) <> 0 ->
  extract_event K keys ((b0 :: tl) ++ more) = extract_event K keys (b0 :: tl).
Proof.
  intros H27 Hn. cbn [app]. unfold extract_event in *.
  destruct (byte_val b0 =? 27) eqn:E27; [lia|].
  destruct (_ || _); [reflexivity|].
  destruct (DecodeRune (b0 :: tl)) as [r n] eqn:Hd.
  destruct (r =? RuneError) eqn:E; cbn [negb fst] in Hn; [congruence|].
  apply Z.eqb_neq in E.
  destruct (DecodeRune_valid _ _ _ Hd E) as (Hr & rest & Hp & ->).
  replace (b0 :: tl ++ more) with (utf8_encode r ++ (rest ++ more))
    by (rewrite app_assoc, <- Hp; reflexivity).
  rewrite (DecodeRune_utf8_encode r _ Hr).
  apply Z.eqb_neq in E. rewrite E. reflexivity.
Qed.

(** X3: the encoding of a scalar value other than U+FFFD that arrives in
    two chunks, on an empty buffer, gives no event at the first chunk,
    which is kept, and the scalar's rune event at the second, which empties
    the buffer. *)
Theorem scalar_in_two_chunks (c : Z) (b0 : byte) (tl post : list byte) :
  is_scalar c -> c <> 0xFFFD ->
  utf8_encode c = (b0 :: tl) ++ post -> post <> [] -> rune_lead K b0 ->
  producer_step K keys {| p_pc := P_select; inbuf := [] |}
                (PE_chunk {| data := b0 :: tl; ierr := None |})
  = Some {| p_pc := P_select; inbuf := b0 :: tl |} /\
  producer_step K keys {| p_pc := P_select; inbuf := b0 :: tl |}
                (PE_chunk {| data := post; ierr := None |})
  = Some {| p_pc := P_produce (rune_event c) false; inbuf := [] |}.
Proof.
  intros Hc Hne Henc Hpost Hlead.
  unfold producer_step. cbn [p_pc inbuf ierr data]. unfold extract_and_produce. split.
  - rewrite app_nil_l, (extract_event_partial K keys c b0 tl post Hc Henc Hpost Hlead).
    reflexivity.
  - pose proof (extract_event_scalar K keys c b0 (tl ++ post) [] Hc Hne Henc Hlead) as He.
    rewrite app_nil_r in He. rewrite <- Henc, He.
    pose proof (len_utf8_encode c) as Hl.
    destruct (len (utf8_encode c) =? 0) eqn:E0; [lia|]. cbn [negb].
    destruct (0 <=? len (utf8_encode c)) eqn:E1; [|lia].
    rewrite Z.leb_refl. cbn [andb]. do 2 f_equal.
    unfold len. rewrite Nat2Z.id. apply skipn_all.
Qed.
End RuneProperties.

(** ** What the decoder never returns *)

Section DecoderShape.
Variable K : KeyDecls.
Variable keys : list (list byte).

(** The decoder never makes an error event. *)
Lemma extract_event_no_error (b : list byte) :
  err (snd (extract_event K keys b)) = None.
Proof.
  destruct b as [|b0 rest]; [reflexivity|]. unfold extract_event.
  destruct (byte_val b0 =? 27).
  - unfold parse_escape_sequence.
    destruct (parse_escape_from_cases K keys (b0 :: rest) 0)
      as [H | (j & k & _ & _ & H)]; rewrite H;
      destruct (negb (_ =? 0)); reflexivity.
  - destruct (_ || _); [reflexivity|].
    destruct (DecodeRune (b0 :: rest)) as [r n].
    destruct (negb (r =? RuneError)); reflexivity.
Qed.

(** X4: whatever the buffer and the table, the event [extract_event]
    returns carries no error and is a key or a rune, never both; and with
    size 0 it is the zero event. *)
Theorem decoder_event_shape (b : list byte) :
  err (snd (extract_event K keys b)) = None /\
  (key (snd (extract_event K keys b)) = 0 \/ rune (snd (extract_event K keys b)) = 0) /\
  (fst (extract_event K keys b) = 0 -> snd (extract_event K keys b) = keyEvent_zero).
Proof.
  split; [apply extract_event_no_error|].
  destruct b as [|b0 rest]; [cbn; auto|]. unfold extract_event.
  pose proof (len_nonneg rest) as Hrest.
  destruct (byte_val b0 =? 27).
  - unfold parse_escape_sequence.
    destruct (parse_escape_from_cases K keys (b0 :: rest) 0)
      as [H | (j & k & _ & _ & H)]; rewrite H.
    + cbn [negb Z.eqb fst snd rune]. split; [now right|].
      rewrite len_cons. lia.
    + destruct (len k =? 0) eqn:E; cbn [negb fst snd rune key_event];
        (split; [now right|]); [rewrite len_cons; lia | apply Z.eqb_neq in E; lia].
  - destruct (_ || _); [cbn [fst snd rune]; split; [now right | lia]|].
    pose proof (DecodeRune_size (b0 :: rest)) as Hs.
    destruct (DecodeRune (b0 :: rest)) as [r n] eqn:Hd. cbn [snd] in Hs.
    destruct (r =? RuneError) eqn:E; cbn [negb fst snd key];
      (split; [now left|]); [reflexivity|].
    intros ->. exfalso. apply Z.eqb_neq in E.
    destruct (DecodeRune_valid _ _ _ Hd E) as (_ & _ & _ & Hn).
    pose proof (len_utf8_encode r). lia.
Qed.

(** X5: when the first byte is not the escape byte, the decoder consumes at
    most four bytes, however long the buffer. *)
Theorem non_escape_consumes_at_most_four (b0 : byte) (tl : list byte) :
  byte_val b0 <> 27 ->
  0 <= fst (extract_event K keys (b0 :: tl)) <= 4.
Proof.
  intros H27. unfold extract_event.
  destruct (byte_val b0 =? 27) eqn:E27; [lia|].
  destruct (_ || _); [cbn [fst]; lia|].
  destruct (DecodeRune (b0 :: tl)) as [r n] eqn:Hd.
  destruct (r =? RuneError) eqn:E; cbn [negb fst]; [lia|].
  apply Z.eqb_neq in E.
  destruct (DecodeRune_valid _ _ _ Hd E) as (_ & _ & _ & ->).
  pose proof (len_utf8_encode r). lia.
Qed.

(** X6: a buffer whose first byte is handed to the rune decoder and starts
    no UTF-8 encoding is never decoded, whatever follows that byte: the
    decoder returns 0 on it for ever. *)
Theorem invalid_lead_is_stuck (b0 : byte) (tl : list byte) :
  rune_lead K b0 -> invalid_lead b0 -> stuck K keys (b0 :: tl).
Proof.
  intros Hlead Hinv more. cbn [app].
  rewrite (extract_event_rune K keys _ _ Hlead), DecodeRune_arith.
  unfold decode_arith, invalid_lead in *. cbv zeta.
  destruct (byte_val b0 <? 0x80) eqn:E1; [lia|].
  destruct ((byte_val b0 <? 0xC2) || (0xF4 <? byte_val b0)) eqn:E2; [reflexivity|lia].
Qed.
End DecoderShape.

(** ** Entries of the table that an earlier entry hides *)

Lemma is_prefix_trans (a b c : list byte) : is_prefix a b -> is_prefix b c -> is_prefix a c.
Proof. intros [x ->] [y ->]. exists (x ++ y). now rewrite app_assoc. Qed.

(** When some entry is a prefix of the buffer, there is a first one. *)
Lemma first_match_exists (keys : list (list byte)) (buf : list byte) (j : nat) (k : list byte) :
  nth_error keys j = Some k -> is_prefix k buf ->
  exists j' k', (j' <= j)%nat /\ first_match keys buf j' k'.
Proof.
  revert j. induction keys as [|k0 ks IH]; intros j Hn Hp; [destruct j; discriminate|].
  destruct (HasPrefix buf k0) eqn:E.
  - apply HasPrefix_spec in E. exists 0%nat, k0. split; [lia|].
    split; [reflexivity|]. split; [assumption|]. intros i k' Hi. lia.
  - apply HasPrefix_false in E. destruct j as [|j1].
    + cbn in Hn. injection Hn as ->. contradiction.
    + destruct (IH j1 Hn Hp) as (j' & k' & Hle & Hn' & Hp' & Hfirst).
      exists (S j'), k'. split; [lia|]. split; [exact Hn'|]. split; [exact Hp'|].
      intros i ki Hi Hni. destruct i as [|i1].
      * cbn in Hni. injection Hni as <-. exact E.
      * apply (Hfirst i1 ki); [lia | exact Hni].
Qed.

(** X7: an entry of the table whose literal has an earlier entry's literal
    as a prefix is hidden by it: on every buffer the later literal is a
    prefix of, [parse_escape_sequence] returns the length and the key of an
    entry at or before the earlier one. *)
Theorem earlier_prefix_entry_wins (K : KeyDecls) (keys : list (list byte))
    (buf : list byte) (i j : nat) (ki kj : list byte) :
  (j < i)%nat -> nth_error keys j = Some kj -> nth_error keys i = Some ki ->
  is_prefix kj ki -> is_prefix ki buf ->
  exists j' k', (j' <= j)%nat /\ nth_error keys j' = Some k' /\ is_prefix k' buf /\
    parse_escape_sequence K keys buf
    = (len k', key_event (Key K (0xFFFF - Z.of_nat j'))).
Proof.
  intros Hji Hj Hi Hjk Hib.
  destruct (first_match_exists keys buf j kj Hj (is_prefix_trans _ _ _ Hjk Hib))
    as (j' & k' & Hle & Hfm).
  exists j', k'. split; [exact Hle|].
  split; [apply Hfm|]. split; [apply Hfm|].
  now apply parse_escape_sequence_first_match.
Qed.

(** ** The producer's moves *)

Section ProducerMoves.
Variable K : KeyDecls.
Variable keys : list (list byte).

(** What [extract_and_produce] leaves: the buffer untouched and the
    producer in its select, or the decoded size taken from the head and the
    event about to be sent. *)
Lemma extract_and_produce_cases (buf : list byte) :
  (fst (extract_event K keys buf) = 0 /\
   extract_and_produce K keys buf = {| p_pc := P_select; inbuf := buf |}) \/
  (0 < fst (extract_event K keys buf) <= len buf /\
   extract_and_produce K keys buf
   = {| p_pc := P_produce (snd (extract_event K keys buf)) false;
        inbuf := skipn (Z.to_nat (fst (extract_event K keys buf))) buf |}).
Proof.
  unfold extract_and_produce.
  pose proof (extract_event_size_bounds K keys buf) as Hb.
  destruct (extract_event K keys buf) as [size event]. cbn [fst snd] in *.
  destruct (size =? 0) eqn:E; cbn [negb].
  - left. apply Z.eqb_eq in E. auto.
  - right. apply Z.eqb_neq in E.
    destruct (0 <=? size) eqn:E1; [|lia].
    destruct (size <=? len buf) eqn:E2; [|lia].
    split; [lia | reflexivity].
Qed.

Lemma producer_step_cases (p : producer) (e : producer_event) (p' : producer) :
  producer_step K keys p e = Some p' ->
  (p_pc p = P_start /\ e = PE_run /\ p' = extract_and_produce K keys (inbuf p)) \/
  (p_pc p = P_select /\ exists c, e = PE_chunk c /\
     ((exists er, ierr c = Some er /\
                  p' = {| p_pc := P_produce (error_event er) true; inbuf := inbuf p |}) \/
      (ierr c = None /\ p' = extract_and_produce K keys (inbuf p ++ data c)))) \/
  (p_pc p = P_select /\ e = PE_quit /\ p' = {| p_pc := P_stopped; inbuf := inbuf p |}) \/
  (exists event ret, p_pc p = P_produce event ret /\ (e = PE_sent \/ e = PE_quit) /\
     p' = {| p_pc := if ret then P_stopped else P_select; inbuf := inbuf p |}).
Proof.
  destruct p as [pc b]. unfold producer_step. cbn [p_pc inbuf].
  destruct pc, e; try discriminate; intros H.
  - injection H as <-. left. auto.
  - right. left. split; [reflexivity|]. exists ev. split; [reflexivity|].
    destruct (ierr ev) as [er|]; injection H as <-; [left; exists er | right]; auto.
  - injection H as <-. right. right. left. auto.
  - injection H as <-. right. right. right. exists event, ret. auto.
  - injection H as <-. right. right. right. exists event, ret. auto.
Qed.

(** How a step of the system moves the producer and the consumer. *)
Lemma system_step_producer (s : system) (e : sys_event) (s' : system) :
  system_step K keys s e = Some s' ->
  (prod s' = prod s /\ delivered s' = delivered s) \/
  (exists pe, producer_step K keys (prod s) pe = Some (prod s') /\
     ((pe = PE_run /\ e = S_run /\ delivered s' = delivered s) \/
      (exists c, pe = PE_chunk c /\ e = S_chunk /\ reader s = R_deliver c /\
                 delivered s' = delivered s) \/
      (pe = PE_quit /\ e = S_quit_producer /\ delivered s' = delivered s) \/
      (exists event ret, pe = PE_sent /\ e = S_event /\
                         p_pc (prod s) = P_produce event ret /\
                         delivered s' = delivered s ++ [event]))).
Proof.
  destruct s as [r p sp c d]. destruct e;
    cbn [system_step closer reader prod sigio_pending delivered
         set_reader set_prod set_closer]; intros H.
  - injection H as <-. left. auto.
  - destruct sp; [|discriminate]. destruct (reader_step r RE_sigio); [|discriminate].
    injection H as <-. left. auto.
  - destruct (reader_step r (RE_read r0)); [|discriminate].
    injection H as <-. left. auto.
  - destruct r; try discriminate. cbn [reader_step] in H.
    destruct (producer_step K keys p (PE_chunk c0)) as [p'|] eqn:E; [|discriminate].
    injection H as <-. right. exists (PE_chunk c0). split; [exact E|].
    right. left. exists c0. auto.
  - destruct (producer_step K keys p PE_run) as [p'|] eqn:E; [|discriminate].
    injection H as <-. right. exists PE_run. split; [exact E|]. left. auto.
  - destruct (p_pc p) eqn:Epc; try discriminate.
    destruct (producer_step K keys p PE_sent) as [p'|] eqn:E; [|discriminate].
    injection H as <-. right. exists PE_sent. split; [exact E|].
    right. right. right. exists event, ret. auto.
  - destruct c; try discriminate. injection H as <-. left. auto.
  - destruct c; try discriminate.
    destruct (reader_step r RE_quit); [|discriminate].
    injection H as <-. left. auto.
  - destruct c; try discriminate.
    destruct (producer_step K keys p PE_quit) as [p'|] eqn:E; [|discriminate].
    injection H as <-. right. exists PE_quit. split; [exact E|].
    right. right. left. auto.
Qed.
End ProducerMoves.

(** ** What the producer never does *)

Section ProducerInvariants.
Variable K : KeyDecls.
Variable keys : list (list byte).

Lemma producer_step_no_panic (p : producer) (e : producer_event) (p' : producer) :
  producer_step K keys p e = Some p' -> p_pc p <> P_panic -> p_pc p' <> P_panic.
Proof.
  intros H Hp.
  destruct (producer_step_cases K keys p e p' H)
    as [(_ & _ & ->) | [(_ & c & _ & [(er & _ & ->) | (_ & ->)])
       | [(_ & _ & ->) | (event & ret & _ & _ & ->)]]];
    try apply extract_and_produce_no_panic; cbn [p_pc]; try discriminate.
  destruct ret; discriminate.
Qed.

(** X8: the producer's slicing of its buffer never goes out of bounds:
    whatever the table, the chunks and the schedule, a producer that has
    not panicked never does. *)
Theorem producer_never_panics (s : system) (es : list sys_event) (s' : system) :
  p_pc (prod s) <> P_panic ->
  run K keys s es = Some s' ->
  p_pc (prod s') <> P_panic.
Proof.
  intros Hs Hrun.
  apply (run_invariant K keys (fun x => p_pc (prod x) <> P_panic) (fun _ => True))
    with (es := es) (s := s); [| assumption | apply Forall_forall; auto | assumption].
  clear. intros s e s' Hs _ Hstep.
  destruct (system_step_producer K keys s e s' Hstep) as [[-> _] | (pe & Hp & _)];
    [assumption|].
  now apply (producer_step_no_panic _ _ _ Hp).
Qed.

(** X9: on a chunk of data the producer loses and reorders nothing: the
    old buffer followed by the chunk is what the decoder consumed followed
    by the new buffer, and bytes are consumed only with an event to send. *)
Theorem chunk_bytes_conserved (p : producer) (bytes : list byte) (p' : producer) :
  p_pc p = P_select ->
  producer_step K keys p (PE_chunk {| data := bytes; ierr := None |}) = Some p' ->
  exists consumed,
    inbuf p ++ bytes = consumed ++ inbuf p' /\
    len consumed = fst (extract_event K keys (inbuf p ++ bytes)) /\
    (consumed = [] /\ p_pc p' = P_select \/
     consumed <> [] /\
     p_pc p' = P_produce (snd (extract_event K keys (inbuf p ++ bytes))) false).
Proof.
  intros Hpc H. unfold producer_step in H. rewrite Hpc in H. cbn [ierr data] in H.
  injection H as <-.
  destruct (extract_and_produce_cases K keys (inbuf p ++ bytes)) as [[H0 ->] | [Hb ->]];
    cbn [inbuf p_pc].
  - exists []. rewrite H0. repeat split. now left.
  - set (size := fst (extract_event K keys (inbuf p ++ bytes))) in *.
    exists (firstn (Z.to_nat size) (inbuf p ++ bytes)).
    assert (Hl : len (firstn (Z.to_nat size) (inbuf p ++ bytes)) = size).
    { unfold len in *. rewrite length_firstn. lia. }
    split; [symmetry; apply firstn_skipn|]. split; [exact Hl|].
    right. split; [|reflexivity]. intros E. rewrite E in Hl. unfold len in Hl. cbn in Hl. lia.
Qed.

Lemma stalled_step (buf : list byte) (d0 : list keyEvent)
    (s : system) (e : sys_event) (s' : system) :
  stuck K keys buf -> stalled buf d0 s -> system_step K keys s e = Some s' ->
  stalled buf d0 s'.
Proof.
  intros Hstuck ([more Hbuf] & Hs) Hstep. unfold stalled.
  destruct (system_step_producer K keys s e s' Hstep)
    as [[-> ->] | (pe & Hp & Hcase)]; [split; [now exists more | exact Hs]|].
  destruct (producer_step_cases K keys _ _ _ Hp)
    as [(Hpc & _ & _) | [(Hpc & c & -> & Hc)
       | [(Hpc & -> & Hp') | (event & ret & Hpc & Hpe & Hp')]]].
  - destruct Hs as [[E _] | [(x & E & _) | [E _]]]; congruence.
  - destruct Hcase as [(E & _) | [(c' & _ & _ & _ & Hd)
                      | [(E & _) | (ev & r & E & _)]]]; try discriminate.
    destruct Hs as [[_ Hd0] | [(x & E & _) | [E _]]]; try congruence.
    destruct Hc as [(er & _ & ->) | (_ & ->)]; cbn [inbuf p_pc].
    + split; [now exists more|]. right. left. exists er. split; [reflexivity | congruence].
    + rewrite Hbuf, <- app_assoc.
      destruct (extract_and_produce_cases K keys (buf ++ more ++ data c)) as [[_ ->] | [Hb _]].
      * cbn [inbuf p_pc]. split; [now exists (more ++ data c)|]. left. split; congruence.
      * rewrite (Hstuck (more ++ data c)) in Hb. cbn in Hb. lia.
  - destruct Hcase as [(E & _) | [(c' & E & _) | [(_ & _ & Hd) | (ev & r & E & _)]]];
      try discriminate.
    rewrite Hp'. cbn [inbuf p_pc]. split; [now exists more|].
    destruct Hs as [[_ Hd0] | [(x & E & _) | [E _]]]; try congruence.
    right. right. split; [reflexivity|]. left. congruence.
  - rewrite Hp'. cbn [inbuf p_pc]. split; [now exists more|].
    destruct Hs as [[E _] | [(x & E & Hd0) | [E _]]]; try congruence.
    rewrite Hpc in E. injection E as -> ->.
    right. right. split; [reflexivity|].
    destruct Hcase as [(E & _) | [(c' & E & _) | [(_ & _ & Hd) | (ev & r & _ & _ & Hev & Hd)]]];
      try (subst pe; destruct Hpe; discriminate).
    + left. congruence.
    + right. exists x. rewrite Hpc in Hev. injection Hev as <- _. congruence.
Qed.

(** X10: once the buffer is stuck, with the producer in its select, the
    consumer never receives a key or a rune again, whatever chunks arrive:
    all it can still receive is the error event of a failed read, once. *)
Theorem stuck_buffer_silences_producer (s : system) (es : list sys_event) (s' : system) :
  stuck K keys (inbuf (prod s)) ->
  p_pc (prod s) = P_select ->
  run K keys s es = Some s' ->
  delivered s' = delivered s \/ exists e, delivered s' = delivered s ++ [error_event e].
Proof.
  intros Hstuck Hpc Hrun.
  assert (H : stalled (inbuf (prod s)) (delivered s) s').
  { apply (run_invariant K keys (stalled (inbuf (prod s)) (delivered s)) (fun _ => True))
      with (es := es) (s := s); [| | apply Forall_forall; auto | assumption].
    - intros x e y Hx _. now apply stalled_step.
    - split; [exists []; now rewrite app_nil_r | left; auto]. }
  destruct H as (_ & [[_ H] | [(e & _ & H) | [_ H]]]); auto.
Qed.
End ProducerInvariants.

(** ** The order of what the consumer receives *)

Section Delivery.
Variable K : KeyDecls.
Variable keys : list (list byte).

Lemma extract_and_produce_pending_no_error (buf : list byte) :
  match p_pc (extract_and_produce K keys buf) with
  | P_produce event false => no_error event
  | P_produce event true => exists e, event = error_event e
  | _ => True
  end.
Proof.
  destruct (extract_and_produce_cases K keys buf) as [[_ ->] | [_ ->]]; cbn [p_pc]; [exact I|].
  apply extract_event_no_error.
Qed.

Lemma error_comes_last_step (s : system) (e : sys_event) (s' : system) :
  error_comes_last s -> system_step K keys s e = Some s' -> error_comes_last s'.
Proof.
  intros Hs Hstep. unfold error_comes_last in *.
  destruct (system_step_producer K keys s e s' Hstep)
    as [[-> ->] | (pe & Hp & Hcase)]; [exact Hs|].
  destruct (producer_step_cases K keys _ _ _ Hp)
    as [(Hpc & -> & ->) | [(Hpc & c & -> & Hc)
       | [(Hpc & -> & ->) | (event & ret & Hpc & Hpe & ->)]]].
  - destruct Hcase as [(_ & _ & ->) | [(c' & E & _) | [(E & _) | (ev & r & E & _)]]];
      try discriminate.
    destruct Hs as [[Hd _] | [E _]]; [|congruence].
    left. split; [exact Hd | apply extract_and_produce_pending_no_error].
  - destruct Hcase as [(E & _) | [(c' & _ & _ & _ & ->) | [(E & _) | (ev & r & E & _)]]];
      try discriminate.
    destruct Hs as [[Hd _] | [E _]]; [|congruence].
    left. split; [exact Hd|].
    destruct Hc as [(er & _ & ->) | (_ & ->)];
      [cbn [p_pc]; now exists er | apply extract_and_produce_pending_no_error].
  - destruct Hcase as [(E & _) | [(c' & E & _) | [(_ & _ & ->) | (ev & r & E & _)]]];
      try discriminate.
    destruct Hs as [[Hd _] | [E _]]; [|congruence].
    left. split; [exact Hd | exact I].
  - destruct Hs as [[Hd Hev] | [E _]]; [|congruence]. rewrite Hpc in Hev. cbn [p_pc].
    destruct Hcase as [(E & _) | [(c' & E & _) | [(_ & _ & ->) | (ev & r & _ & _ & Hpc' & ->)]]];
      try (subst pe; destruct Hpe; discriminate).
    + left. split; [exact Hd | destruct ret; exact I].
    + rewrite Hpc in Hpc'. injection Hpc' as <- <-. destruct ret.
      * right. split; [reflexivity|]. destruct Hev as [x ->]. exists (delivered s), x. auto.
      * left. split; [|exact I]. apply Forall_app. split; [exact Hd|]. now constructor.
Qed.

(** X11: the consumer receives at most one error event, the event of a
    failed read, and it is the last one: everything before it carries no
    error, and the producer has returned once it is received. *)
Theorem error_event_comes_last (buf : list byte) (es : list sys_event) (s' : system) :
  run K keys (system_started buf) es = Some s' ->
  exists d, Forall no_error d /\
    (delivered s' = d \/
     exists e, delivered s' = d ++ [error_event e] /\ p_pc (prod s') = P_stopped).
Proof.
  intros Hrun.
  assert (H : error_comes_last s').
  { apply (run_invariant K keys error_comes_last (fun _ => True))
      with (es := es) (s := system_started buf);
      [| | apply Forall_forall; auto | assumption].
    - intros x e y Hx _. now apply error_comes_last_step.
    - left. split; [constructor | exact I]. }
  destruct H as [[Hd _] | (Hpc & d & e & Hd & Hall)].
  - exists (delivered s'). auto.
  - exists d. split; [exact Hall|]. right. exists e. auto.
Qed.

Lemma events_made_step (s : system) (e : sys_event) (s' : system) :
  system_step K keys s e = Some s' ->
  (events_made s' + first_decoding s'
   <= events_made s + first_decoding s + count_chunks [e])%nat.
Proof.
  intros Hstep. unfold events_made, first_decoding.
  destruct (system_step_producer K keys s e s' Hstep)
    as [[-> ->] | (pe & Hp & Hcase)]; [lia|].
  assert (Hmade : forall buf,
    (length (pending (p_pc (extract_and_produce K keys buf))) <= 1)%nat /\
    p_pc (extract_and_produce K keys buf) <> P_start).
  { intros buf. destruct (extract_and_produce_cases K keys buf) as [[_ ->] | [_ ->]];
      cbn; split; (lia || discriminate). }
  destruct (producer_step_cases K keys _ _ _ Hp)
    as [(Hpc & -> & ->) | [(Hpc & c & -> & Hc)
       | [(Hpc & -> & ->) | (event & ret & Hpc & Hpe & ->)]]]; rewrite Hpc.
  - destruct Hcase as [(_ & _ & ->) | [(c' & E & _) | [(E & _) | (ev & r & E & _)]]];
      try discriminate.
    destruct (Hmade (inbuf (prod s))) as [H1 H2].
    destruct (p_pc (extract_and_produce K keys (inbuf (prod s)))); cbn in *; try lia; congruence.
  - destruct Hcase as [(E & _) | [(c' & _ & -> & _ & ->) | [(E & _) | (ev & r & E & _)]]];
      try discriminate.
    destruct Hc as [(er & _ & ->) | (_ & ->)]; [cbn; lia|].
    destruct (Hmade (inbuf (prod s) ++ data c)) as [H1 H2].
    destruct (p_pc (extract_and_produce K keys (inbuf (prod s) ++ data c))); cbn in *; try lia; congruence.
  - destruct Hcase as [(E & _) | [(c' & E & _) | [(_ & _ & ->) | (ev & r & E & _)]]];
      try discriminate. cbn. lia.
  - destruct Hcase as [(E & _) | [(c' & E & _) | [(_ & -> & ->) | (ev & r & _ & -> & _ & ->)]]];
      try (subst pe; destruct Hpe; discriminate).
    + destruct ret; cbn; lia.
    + rewrite length_app. destruct ret; cbn; lia.
Qed.

Lemma events_made_run (es : list sys_event) (s s' : system) :
  run K keys s es = Some s' ->
  (events_made s' + first_decoding s'
   <= events_made s + first_decoding s + count_chunks es)%nat.
Proof.
  revert s. induction es as [|e es IH]; intros s Hrun; cbn [run] in Hrun.
  - injection Hrun as <-. cbn. lia.
  - destruct (system_step K keys s e) as [s1|] eqn:E; [|discriminate].
    pose proof (events_made_step s e s1 E) as H1.
    pose proof (IH s1 Hrun) as H2.
    assert (Hc : count_chunks (e :: es) = (count_chunks [e] + count_chunks es)%nat)
      by (destruct e; reflexivity).
    lia.
Qed.

(** X12: the producer decodes once at its start and once for each chunk
    it receives, so the consumer never has more events than the chunks
    received plus one, however many keys a chunk holds. *)
Theorem one_event_for_each_chunk (buf : list byte) (es : list sys_event) (s' : system) :
  run K keys (system_started buf) es = Some s' ->
  (length (delivered s') <= count_chunks es + 1)%nat.
Proof.
  intros Hrun. pose proof (events_made_run es _ _ Hrun) as H.
  unfold events_made, first_decoding in H. cbn in H. lia.
Qed.
End Delivery.

(** ** The reader and the value of [quit] *)

Section ReaderInvariants.
Variable K : KeyDecls.
Variable keys : list (list byte).

(** How a step of the system moves the reader. *)
Lemma system_step_reader (s : system) (e : sys_event) (s' : system) :
  system_step K keys s e = Some s' ->
  reader s' = reader s \/
  exists re, reader_step (reader s) re = Some (reader s') /\
             (re = RE_quit -> e = S_quit_reader /\ closer s' = C_done).
Proof.
  destruct s as [r p sp c d]. destruct e;
    cbn [system_step closer reader prod sigio_pending delivered
         set_reader set_prod set_closer]; intros H.
  - injection H as <-. now left.
  - destruct sp; [|discriminate].
    destruct (reader_step r RE_sigio) as [r'|] eqn:E; [|discriminate].
    injection H as <-. right. exists RE_sigio. split; [exact E | discriminate].
  - destruct (reader_step r (RE_read r0)) as [r'|] eqn:E; [|discriminate].
    injection H as <-. right. exists (RE_read r0). split; [exact E | discriminate].
  - destruct r; try discriminate. cbn [reader_step] in H.
    destruct (producer_step K keys p (PE_chunk c0)); [|discriminate].
    injection H as <-. right. exists RE_sent. split; [reflexivity | discriminate].
  - destruct (producer_step K keys p PE_run); [|discriminate].
    injection H as <-. now left.
  - destruct (p_pc p); try discriminate.
    destruct (producer_step K keys p PE_sent); [|discriminate].
    injection H as <-. now left.
  - destruct c; try discriminate. injection H as <-. now left.
  - destruct c; try discriminate.
    destruct (reader_step r RE_quit) as [r'|] eqn:E; [|discriminate].
    injection H as <-. right. exists RE_quit. split; [exact E | auto].
  - destruct c; try discriminate.
    destruct (producer_step K keys p PE_quit); [|discriminate].
    injection H as <-. now left.
Qed.

Lemma system_step_closer_done (s : system) (e : sys_event) (s' : system) :
  system_step K keys s e = Some s' -> closer s = C_done -> closer s' = C_done.
Proof.
  destruct s as [r p sp c d]. cbn [closer]. intros H ->. revert H.
  destruct e;
    cbn [system_step closer reader prod sigio_pending delivered
         set_reader set_prod set_closer]; intros H; try discriminate.
  - now injection H as <-.
  - destruct sp; [|discriminate]. destruct (reader_step r RE_sigio); [|discriminate].
    now injection H as <-.
  - destruct (reader_step r (RE_read r0)); [|discriminate]. now injection H as <-.
  - destruct r; try discriminate. cbn [reader_step] in H.
    destruct (producer_step K keys p (PE_chunk c)); [|discriminate]. now injection H as <-.
  - destruct (producer_step K keys p PE_run); [|discriminate]. now injection H as <-.
  - destruct (p_pc p); try discriminate.
    destruct (producer_step K keys p PE_sent); [|discriminate]. now injection H as <-.
Qed.

(** X13: the reader goroutine returns on nothing but the value of [quit]:
    in a schedule where it does not receive that value, no read result, no
    failed read, no end of input and no stopped producer makes it return. *)
Theorem reader_returns_only_on_quit (s : system) (es : list sys_event) (s' : system) :
  Forall (fun e => e <> S_quit_reader) es ->
  reader s <> R_stopped ->
  run K keys s es = Some s' ->
  reader s' <> R_stopped.
Proof.
  intros Hall Hr Hrun.
  apply (run_invariant K keys (fun x => reader x <> R_stopped) (fun e => e <> S_quit_reader))
    with (es := es) (s := s); try assumption.
  clear. intros s e s' Hs He Hstep.
  destruct (system_step_reader s e s' Hstep) as [-> | (re & Hre & Hq)]; [assumption|].
  intros E. rewrite E in Hre. apply reader_stops_only_on_quit in Hre.
  destruct (Hq Hre) as [-> _]. now apply He.
Qed.

Lemma reader_step_deliver_not_would_block (r : reader_pc) (re : reader_event)
    (c : input_event) (e : error) :
  reader_step r re = Some (R_deliver c) -> ierr c = Some e -> ~ would_block e.
Proof.
  destruct r, re; cbn [reader_step]; try discriminate.
  destruct r as [bytes | e0].
  - intros [= <-]. discriminate.
  - destruct (error_eqb e0 EAGAIN) eqn:E1; [discriminate|].
    destruct (error_eqb e0 EWOULDBLOCK) eqn:E2; [discriminate|].
    cbn [orb]. intros [= <-]. cbn [ierr]. intros [= <-] [-> | ->].
    + rewrite (proj2 (error_eqb_eq EAGAIN EAGAIN) eq_refl) in E1. discriminate.
    + rewrite (proj2 (error_eqb_eq EWOULDBLOCK EWOULDBLOCK) eq_refl) in E2. discriminate.
Qed.

Lemma would_block_kept_step (s : system) (e : sys_event) (s' : system) :
  would_block_kept s -> system_step K keys s e = Some s' -> would_block_kept s'.
Proof.
  intros (Hd & Hp & Hr) Hstep. unfold would_block_kept.
  assert (Hr' : forall c x, reader s' = R_deliver c -> ierr c = Some x -> ~ would_block x).
  { destruct (system_step_reader s e s' Hstep) as [-> | (re & Hre & _)]; [exact Hr|].
    intros c x Hc. rewrite Hc in Hre.
    now apply (reader_step_deliver_not_would_block _ _ _ _ Hre). }
  assert (Hmade : forall buf,
    Forall not_would_block (pending (p_pc (extract_and_produce K keys buf)))).
  { intros buf. destruct (extract_and_produce_cases K keys buf) as [[_ ->] | [_ ->]];
      cbn [p_pc pending]; constructor; [|constructor].
    intros x Hx. rewrite extract_event_no_error in Hx. discriminate. }
  destruct (system_step_producer K keys s e s' Hstep)
    as [[-> ->] | (pe & Hstepp & Hcase)]; [auto|].
  destruct (producer_step_cases K keys _ _ _ Hstepp)
    as [(Hpc & -> & ->) | [(Hpc & c & -> & Hc)
       | [(Hpc & -> & ->) | (event & ret & Hpc & Hpe & ->)]]].
  - destruct Hcase as [(_ & _ & ->) | [(c' & E & _) | [(E & _) | (ev & r & E & _)]]];
      try discriminate. auto.
  - destruct Hcase as [(E & _) | [(c' & E & _ & Hrc & ->) | [(E & _) | (ev & r & E & _)]]];
      try discriminate. injection E as <-.
    split; [exact Hd|]. split; [|exact Hr'].
    destruct Hc as [(er & Her & ->) | (_ & ->)]; [|apply Hmade].
    cbn [p_pc pending]. constructor; [|constructor].
    intros x Hx. cbn in Hx. injection Hx as <-. now apply (Hr c er).
  - destruct Hcase as [(E & _) | [(c' & E & _) | [(_ & _ & ->) | (ev & r & E & _)]]];
      try discriminate. cbn [p_pc pending]. auto.
  - rewrite Hpc in Hp. cbn [pending] in Hp. inversion Hp as [|? ? Hev _]; subst.
    assert (Hnone : Forall not_would_block (pending (if ret then P_stopped else P_select)))
      by (destruct ret; constructor).
    destruct Hcase as [(E & _) | [(c' & E & _) | [(_ & _ & ->) | (ev & r & _ & _ & Hpc' & ->)]]];
      try (subst pe; destruct Hpe; discriminate); cbn [p_pc].
    + auto.
    + rewrite Hpc in Hpc'. injection Hpc' as <- <-.
      split; [|auto]. apply Forall_app. split; [exact Hd | now constructor].
Qed.

(** X14: a read that would block is never reported: no chunk handed to the
    producer and no event the consumer receives carries EAGAIN or
    EWOULDBLOCK. *)
Theorem would_block_never_delivered (buf : list byte) (es : list sys_event) (s' : system) :
  run K keys (system_started buf) es = Some s' ->
  Forall not_would_block (delivered s') /\
  (forall c e, reader s' = R_deliver c -> ierr c = Some e -> ~ would_block e).
Proof.
  intros Hrun.
  assert (H : would_block_kept s').
  { apply (run_invariant K keys would_block_kept (fun _ => True))
      with (es := es) (s := system_started buf);
      [| | apply Forall_forall; auto | assumption].
    - intros x e y Hx _. now apply would_block_kept_step.
    - split; [constructor|]. split; [constructor|]. cbn. discriminate. }
  destruct H as (H1 & _ & H3). auto.
Qed.

Lemma reader_alive_step (s : system) (e : sys_event) (s' : system) :
  reader_alive_until_quit s -> system_step K keys s e = Some s' ->
  reader_alive_until_quit s'.
Proof.
  unfold reader_alive_until_quit. intros Hs Hstep Hc.
  assert (Hc0 : closer s <> C_done).
  { intros E. apply Hc. now apply (system_step_closer_done s e s' Hstep). }
  destruct (system_step_reader s e s' Hstep) as [-> | (re & Hre & Hq)]; [auto|].
  intros E. rewrite E in Hre. apply reader_stops_only_on_quit in Hre.
  destruct (Hq Hre) as [_ Hd]. contradiction.
Qed.

(** X15: [releaseConsole] is never blocked for good in [quit <- 1]:
    wherever the tasks stand when it sends, the reader has not returned, and
    within two steps of the reader the value is received and the reader
    returns. *)
Theorem release_is_received (buf : list byte) (es : list sys_event) (s : system) :
  run K keys (system_started buf) es = Some s ->
  closer s = C_sending ->
  reader s <> R_stopped /\
  exists es' s', (length es' <= 2)%nat /\ run K keys s es' = Some s' /\
                 closer s' = C_done /\ reader s' = R_stopped.
Proof.
  intros Hrun Hc.
  assert (H : reader_alive_until_quit s).
  { apply (run_invariant K keys reader_alive_until_quit (fun _ => True))
      with (es := es) (s := system_started buf);
      [| | apply Forall_forall; auto | assumption].
    - intros x e y Hx _. now apply reader_alive_step.
    - intros _. discriminate. }
  assert (Hr : reader s <> R_stopped) by (apply H; congruence).
  split; [exact Hr|].
  destruct s as [r p sp c d]. cbn [closer reader] in *. subst c.
  destruct r as [| |c|]; [| | |contradiction].
  - exists [S_quit_reader]. eexists. cbn. repeat split. lia.
  - exists [S_read (ReadErr EAGAIN); S_quit_reader]. eexists. cbn. repeat split. lia.
  - exists [S_quit_reader]. eexists. cbn. repeat split. lia.
Qed.
End ReaderInvariants.

(** ** [initConsole] as a whole *)

(** X16: [initConsole] returns no error exactly when every step succeeds,
    a failure of F_SETOWN being let through on darwin only; the console is
    then fully armed and both tasks are started. *)
Theorem initConsole_succeeds_iff (env : setup_calls) (c : console) :
  initConsole env console_zero = (c, None) <->
  setup_succeeds env /\ c = console_armed (is_nil (SETOWN_err env)).
Proof.
  unfold initConsole, setup_succeeds. split.
  - destruct (OpenFile_err env); [discriminate|].
    destruct (Open_err env); [discriminate|].
    destruct (setup_term_err env); [discriminate|].
    destruct (SETFL_err env); [discriminate|].
    destruct (darwin env), (SETOWN_err env); cbn [negb andb is_nil];
      try discriminate;
      (destruct (GETATTR_err env); [discriminate|]);
      (destruct (SETATTR_err env); [discriminate|]);
      intros [= <-]; repeat split; auto.
  - intros ((-> & -> & -> & -> & Hown & -> & ->) & ->).
    destruct Hown as [-> | ->]; [destruct (SETOWN_err env)|destruct (darwin env)];
      reflexivity.
Qed.

(** ** Text typed one character for each chunk *)

Section Typing.
Variable K : KeyDecls.
Variable keys : list (list byte).

Lemma run_app (s : system) (a b : list sys_event) :
  run K keys s (a ++ b)
  = match run K keys s a with
    | Some s1 => run K keys s1 b
    | None => None
    end.
Proof.
  revert s. induction a as [|e a IH]; intros s; cbn [app run]; [reflexivity|].
  destruct (system_step K keys s e); [apply IH | reflexivity].
Qed.

Lemma producer_takes_scalar (c : Z) :
  typable K c ->
  producer_step K keys {| p_pc := P_select; inbuf := [] |}
                (PE_chunk {| data := utf8_encode c; ierr := None |})
  = Some {| p_pc := P_produce (rune_event c) false; inbuf := [] |}.
Proof.
  intros (Hc & Hne & b0 & tl & Henc & Hlead).
  unfold producer_step. cbn [p_pc inbuf ierr data app]. unfold extract_and_produce.
  pose proof (extract_event_scalar K keys c b0 tl [] Hc Hne Henc Hlead) as He.
  rewrite app_nil_r in He. rewrite He.
  pose proof (len_utf8_encode c) as Hl.
  destruct (len (utf8_encode c) =? 0) eqn:E0; [lia|]. cbn [negb].
  destruct (0 <=? len (utf8_encode c)) eqn:E1; [|lia].
  rewrite Z.leb_refl. cbn [andb]. do 2 f_equal.
  unfold len. rewrite Nat2Z.id. apply skipn_all.
Qed.

Lemma type_scalar_run (c : Z) (d : list keyEvent) :
  typable K c ->
  run K keys (reading_with d) (type_scalar c) = Some (reading_with (d ++ [rune_event c])).
Proof.
  intros Hc. unfold type_scalar, reading_with.
  cbn [run system_step reader_step reader prod set_reader set_prod
       closer sigio_pending delivered].
  rewrite (producer_takes_scalar c Hc). reflexivity.
Qed.

(** X17: text typed one character for each chunk reaches the consumer
    whole and in order: for scalar values the decoder returns as runes,
    each read as one chunk and received before the next, the consumer gets
    their rune events in the order typed, and the buffer is empty again. *)
Theorem typed_text_in_order (cs : list Z) (d : list keyEvent) :
  Forall (typable K) cs ->
  run K keys (reading_with d) (type_text cs)
  = Some (reading_with (d ++ map rune_event cs)).
Proof.
  revert d. induction cs as [|c cs IH]; intros d Hall.
  - cbn. now rewrite app_nil_r.
  - inversion Hall as [|? ? Hc Hcs]; subst.
    change (type_text (c :: cs)) with (type_scalar c ++ type_text cs).
    rewrite run_app, (type_scalar_run c d Hc), (IH _ Hcs).
    cbn [map]. now rewrite <- app_assoc.
Qed.
End Typing.

(** ** The further properties on given inputs *)

Lemma rune_lead_xe2 : rune_lead K16 xe2.
Proof. unfold rune_lead. cbn. lia. Qed.

Lemma rune_lead_x80 : rune_lead K16 x80.
Proof. unfold rune_lead. cbn. lia. Qed.

Lemma is_scalar_euro : is_scalar 0x20AC.
Proof. left. lia. Qed.

Lemma stuck_x80 : stuck K16 keys_F1_F2 [x80].
Proof. intros more. reflexivity. Qed.

Lemma rune_decoded_iff_encoding_witness :
  rune_lead K16 xe2 /\
  (extract_event K16 keys_F1_F2 (xe2 :: [x82; xac; x61]) = (3, rune_event 0x20AC) /\ 3 <> 0) /\
  exists c, is_scalar c /\ c <> 0xFFFD /\
            is_prefix (utf8_encode c) (xe2 :: [x82; xac; x61]) /\
            3 = len (utf8_encode c) /\ rune_event 0x20AC = rune_event c.
Proof.
  assert (He : extract_event K16 keys_F1_F2 (xe2 :: [x82; xac; x61]) = (3, rune_event 0x20AC)
               /\ 3 <> 0) by (split; [reflexivity | lia]).
  split; [exact rune_lead_xe2|]. split; [exact He|].
  exact (proj1 (rune_decoded_iff_encoding K16 keys_F1_F2 xe2 [x82; xac; x61] 3
                  (rune_event 0x20AC) rune_lead_xe2) He).
Defined.

Lemma decoded_head_stable_witness :
  byte_val x61 <> 27 /\
  fst (extract_event K16 keys_F1_F2 (x61 :: [])) <> 0 /\
  extract_event K16 keys_F1_F2 ((x61 :: []) ++ [x62; x63])
  = extract_event K16 keys_F1_F2 (x61 :: []).
Proof.
  assert (H1 : byte_val x61 <> 27) by (cbn; lia).
  assert (H2 : fst (extract_event K16 keys_F1_F2 (x61 :: [])) <> 0) by (cbn; lia).
  split; [exact H1|]. split; [exact H2|].
  exact (decoded_head_stable K16 keys_F1_F2 x61 [] [x62; x63] H1 H2).
Defined.

Lemma scalar_in_two_chunks_witness :
  is_scalar 0x20AC /\ 0x20AC <> 0xFFFD /\
  utf8_encode 0x20AC = (xe2 :: [x82]) ++ [xac] /\ [xac] <> [] /\ rune_lead K16 xe2 /\
  producer_step K16 keys_F1_F2 {| p_pc := P_select; inbuf := [] |}
                (PE_chunk {| data := xe2 :: [x82]; ierr := None |})
  = Some {| p_pc := P_select; inbuf := xe2 :: [x82] |} /\
  producer_step K16 keys_F1_F2 {| p_pc := P_select; inbuf := xe2 :: [x82] |}
                (PE_chunk {| data := [xac]; ierr := None |})
  = Some {| p_pc := P_produce (rune_event 0x20AC) false; inbuf := [] |}.
Proof.
  assert (H2 : 0x20AC <> 0xFFFD) by lia.
  assert (H3 : utf8_encode 0x20AC = (xe2 :: [x82]) ++ [xac]) by reflexivity.
  assert (H4 : [xac] <> []) by discriminate.
  split; [exact is_scalar_euro|]. split; [exact H2|]. split; [exact H3|].
  split; [exact H4|]. split; [exact rune_lead_xe2|].
  exact (scalar_in_two_chunks K16 keys_F1_F2 0x20AC xe2 [x82] [xac]
           is_scalar_euro H2 H3 H4 rune_lead_xe2).
Defined.

Lemma non_escape_consumes_at_most_four_witness :
  byte_val xf0 <> 27 /\
  0 <= fst (extract_event K16 keys_F1_F2 (xf0 :: [x9f; x98; x80; x61; x62])) <= 4.
Proof.
  assert (H : byte_val xf0 <> 27) by (cbn; lia).
  split; [exact H|].
  exact (non_escape_consumes_at_most_four K16 keys_F1_F2 xf0 [x9f; x98; x80; x61; x62] H).
Defined.

Lemma invalid_lead_is_stuck_witness :
  rune_lead K16 x80 /\ invalid_lead x80 /\ stuck K16 keys_F1_F2 (x80 :: [x61]).
Proof.
  assert (H : invalid_lead x80) by (left; cbn; lia).
  split; [exact rune_lead_x80|]. split; [exact H|].
  exact (invalid_lead_is_stuck K16 keys_F1_F2 x80 [x61] rune_lead_x80 H).
Defined.

Lemma earlier_prefix_entry_wins_witness :
  (0 < 1)%nat /\ nth_error [esc_O; esc_OP] 0 = Some esc_O /\
  nth_error [esc_O; esc_OP] 1 = Some esc_OP /\
  is_prefix esc_O esc_OP /\ is_prefix esc_OP [x1b; x4f; x50; x61] /\
  exists j' k', (j' <= 0)%nat /\ nth_error [esc_O; esc_OP] j' = Some k' /\
    is_prefix k' [x1b; x4f; x50; x61] /\
    parse_escape_sequence K16 [esc_O; esc_OP] [x1b; x4f; x50; x61]
    = (len k', key_event (Key K16 (0xFFFF - Z.of_nat j'))).
Proof.
  assert (H1 : (0 < 1)%nat) by lia.
  assert (H4 : is_prefix esc_O esc_OP) by prefix_by_eval.
  assert (H5 : is_prefix esc_OP [x1b; x4f; x50; x61]) by prefix_by_eval.
  split; [exact H1|]. split; [reflexivity|]. split; [reflexivity|].
  split; [exact H4|]. split; [exact H5|].
  exact (earlier_prefix_entry_wins K16 [esc_O; esc_OP] [x1b; x4f; x50; x61] 1 0
           esc_OP esc_O H1 eq_refl eq_refl H4 H5).
Defined.

Lemma producer_never_panics_witness :
  p_pc (prod holding_OPa) <> P_panic /\
  run K16 keys_F1_F2 holding_OPa [S_chunk; S_event] = Some after_F1 /\
  p_pc (prod after_F1) <> P_panic.
Proof.
  assert (H1 : p_pc (prod holding_OPa) <> P_panic) by discriminate.
  assert (H2 : run K16 keys_F1_F2 holding_OPa [S_chunk; S_event] = Some after_F1)
    by reflexivity.
  split; [exact H1|]. split; [exact H2|].
  exact (producer_never_panics K16 keys_F1_F2 holding_OPa [S_chunk; S_event] after_F1 H1 H2).
Defined.

Lemma chunk_bytes_conserved_witness :
  p_pc {| p_pc := P_select; inbuf := [x61] |} = P_select /\
  producer_step K16 keys_F1_F2 {| p_pc := P_select; inbuf := [x61] |}
                (PE_chunk {| data := [x62; x63]; ierr := None |})
  = Some {| p_pc := P_produce (rune_event 97) false; inbuf := [x62; x63] |} /\
  exists consumed,
    inbuf {| p_pc := P_select; inbuf := [x61] |} ++ [x62; x63]
    = consumed ++ inbuf {| p_pc := P_produce (rune_event 97) false; inbuf := [x62; x63] |} /\
    len consumed
    = fst (extract_event K16 keys_F1_F2
             (inbuf {| p_pc := P_select; inbuf := [x61] |} ++ [x62; x63])) /\
    (consumed = [] /\
     p_pc {| p_pc := P_produce (rune_event 97) false; inbuf := [x62; x63] |} = P_select \/
     consumed <> [] /\
     p_pc {| p_pc := P_produce (rune_event 97) false; inbuf := [x62; x63] |}
     = P_produce (snd (extract_event K16 keys_F1_F2
                         (inbuf {| p_pc := P_select; inbuf := [x61] |} ++ [x62; x63])))
                 false).
Proof.
  split; [reflexivity|]. split; [reflexivity|].
  exact (chunk_bytes_conserved K16 keys_F1_F2 {| p_pc := P_select; inbuf := [x61] |}
           [x62; x63] _ eq_refl eq_refl).
Defined.

Lemma stuck_buffer_silences_producer_witness :
  stuck K16 keys_F1_F2 (inbuf (prod stuck_on_x80)) /\
  p_pc (prod stuck_on_x80) = P_select /\
  run K16 keys_F1_F2 stuck_on_x80 [S_read (ReadOk [x61]); S_chunk]
  = Some {| reader := R_read; prod := {| p_pc := P_select; inbuf := [x80; x61] |};
            sigio_pending := false; closer := C_idle; delivered := [] |} /\
  (delivered {| reader := R_read; prod := {| p_pc := P_select; inbuf := [x80; x61] |};
                sigio_pending := false; closer := C_idle; delivered := [] |}
   = delivered stuck_on_x80 \/
   exists e,
     delivered {| reader := R_read; prod := {| p_pc := P_select; inbuf := [x80; x61] |};
                  sigio_pending := false; closer := C_idle; delivered := [] |}
     = delivered stuck_on_x80 ++ [error_event e]).
Proof.
  split; [exact stuck_x80|]. split; [reflexivity|]. split; [reflexivity|].
  exact (stuck_buffer_silences_producer K16 keys_F1_F2 stuck_on_x80
           [S_read (ReadOk [x61]); S_chunk] _ stuck_x80 eq_refl eq_refl).
Defined.

Lemma error_event_comes_last_witness :
  run K16 keys_F1_F2 (system_started []) key_then_error = Some after_key_then_error /\
  exists d, Forall no_error d /\
    (delivered after_key_then_error = d \/
     exists e, delivered after_key_then_error = d ++ [error_event e] /\
               p_pc (prod after_key_then_error) = P_stopped).
Proof.
  split; [reflexivity|].
  exact (error_event_comes_last K16 keys_F1_F2 [] key_then_error after_key_then_error eq_refl).
Defined.

Lemma one_event_for_each_chunk_witness :
  run K16 keys_F1_F2 (system_started []) key_then_error = Some after_key_then_error /\
  (length (delivered after_key_then_error) <= count_chunks key_then_error + 1)%nat.
Proof.
  split; [reflexivity|].
  exact (one_event_for_each_chunk K16 keys_F1_F2 [] key_then_error after_key_then_error eq_refl).
Defined.

Lemma reader_returns_only_on_quit_witness :
  Forall (fun e => e <> S_quit_reader) key_then_error /\
  reader (system_started []) <> R_stopped /\
  run K16 keys_F1_F2 (system_started []) key_then_error = Some after_key_then_error /\
  reader after_key_then_error <> R_stopped.
Proof.
  assert (H1 : Forall (fun e => e <> S_quit_reader) key_then_error)
    by (repeat constructor; discriminate).
  assert (H2 : reader (system_started []) <> R_stopped) by discriminate.
  split; [exact H1|]. split; [exact H2|]. split; [reflexivity|].
  exact (reader_returns_only_on_quit K16 keys_F1_F2 (system_started []) key_then_error
           after_key_then_error H1 H2 eq_refl).
Defined.

Lemma would_block_never_delivered_witness :
  run K16 keys_F1_F2 (system_started []) key_then_error = Some after_key_then_error /\
  Forall not_would_block (delivered after_key_then_error) /\
  (forall c e, reader after_key_then_error = R_deliver c -> ierr c = Some e ->
               ~ would_block e).
Proof.
  split; [reflexivity|].
  exact (would_block_never_delivered K16 keys_F1_F2 [] key_then_error
           after_key_then_error eq_refl).
Defined.

Lemma release_is_received_witness :
  run K16 keys_F1_F2 (system_started []) release_while_reading
  = Some released_while_reading /\
  closer released_while_reading = C_sending /\
  reader released_while_reading <> R_stopped /\
  exists es' s', (length es' <= 2)%nat /\
                 run K16 keys_F1_F2 released_while_reading es' = Some s' /\
                 closer s' = C_done /\ reader s' = R_stopped.
Proof.
  split; [reflexivity|]. split; [reflexivity|].
  exact (release_is_received K16 keys_F1_F2 [] release_while_reading
           released_while_reading eq_refl eq_refl).
Defined.

Lemma typable_a : typable K16 97.
Proof.
  split; [left; lia|]. split; [lia|]. exists x61, []. split; [reflexivity|].
  unfold rune_lead. cbn. lia.
Qed.

Lemma typable_euro : typable K16 0x20AC.
Proof.
  split; [exact is_scalar_euro|]. split; [lia|]. exists xe2, [x82; xac].
  split; [reflexivity | exact rune_lead_xe2].
Qed.

Lemma typed_text_in_order_witness :
  Forall (typable K16) [97; 0x20AC] /\
  run K16 keys_F1_F2 (reading_with []) (type_text [97; 0x20AC])
  = Some (reading_with ([] ++ map rune_event [97; 0x20AC])).
Proof.
  assert (H : Forall (typable K16) [97; 0x20AC])
    by (constructor; [exact typable_a | constructor; [exact typable_euro | constructor]]).
  split; [exact H|].
  exact (typed_text_in_order K16 keys_F1_F2 [97; 0x20AC] [] H).
Defined.
